(** * Mbti-1.20: scoring, phone canonicalisation, message tags, quiz flow

    A shallow embedding of the decision logic of the questionnaire
    application: [calculateResults] and the quiz handlers of the main
    component (src/unnamed/part_000), and the persistence helpers of
    src/services/dataService.ts.

    JavaScript strings are sequences of UTF-16 code units; they are
    modelled as [list N].  Awaited network calls are modelled by a small
    interaction type [io] whose [Fetch] nodes are the [await fetch(...)]
    points of the source. *)

From stdpp Require Import base option list strings gmap.
From Stdlib Require Import ZArith NArith Bool Ascii Lia.

Local Open Scope Z_scope.

(* ================================================================== *)
(** * Part I: the program                                              *)
(* ================================================================== *)

(** ** JavaScript string primitives *)

Module JS.

(** An ASCII literal as a sequence of code units. *)
Definition lit (s : string) : list N :=
  List.map Ascii.N_of_ascii (String.list_ascii_of_string s).

(** [\d]: the ten ASCII digits. *)
Definition is_digit (c : N) : bool := ((48 <=? c) && (c <=? 57))%N.

(** [\s], which is also the set removed by [trimEnd]: ECMAScript
    WhiteSpace and LineTerminator code units. *)
Definition is_space (c : N) : bool :=
  (existsb (N.eqb c)
     [9; 10; 11; 12; 13; 32; 160; 5760; 8232; 8233; 8239; 8287; 12288; 65279]
   || ((8192 <=? c) && (c <=? 8202)))%N.

(** [s.startsWith(p)] *)
Fixpoint startsWith (s p : list N) {struct p} : bool :=
  match p with
  | [] => true
  | b :: p' =>
      match s with
      | [] => false
      | a :: s' => (a =? b)%N && startsWith s' p'
      end
  end.

(** [s.includes(p)] *)
Fixpoint includes (s p : list N) : bool :=
  startsWith s p ||
  match s with
  | [] => false
  | _ :: s' => includes s' p
  end.

(** [s.trimEnd()] *)
Fixpoint trimEnd (s : list N) : list N :=
  match s with
  | [] => []
  | c :: s' =>
      match trimEnd s' with
      | [] => if is_space c then [] else [c]
      | t => c :: t
      end
  end.

(** [s.slice(-n)] for [n > 0]: the last [n] code units. *)
Definition slice_last (n : nat) (s : list N) : list N :=
  drop (length s - n) s.

(** [s.replace(/\D/g, '')] *)
Definition digits_only (s : list N) : list N := List.filter is_digit s.

End JS.

Import JS.

(** ** Scoring engine (part_000, lines 327-338) *)

Module Scoring.

Record ScoringResult := mkResult {
  EI : Z; SN : Z; FT : Z; JP : Z;
  type : list N
}.

(** [const getVal = (id) => currentAnswers[id] ?? 3] *)
Definition getVal (currentAnswers : gmap Z Z) (id : Z) : Z :=
  match currentAnswers !! id with
  | Some v => v
  | None => 3
  end.

Definition calculateResults (currentAnswers : gmap Z Z) : ScoringResult :=
  let g := getVal currentAnswers in
  let ieValue := 30 - g 3 - g 7 - g 11 + g 15 - g 19 + g 23 + g 27 - g 31 in
  let snValue := 12 + g 4 + g 8 + g 12 + g 16 + g 20 - g 24 - g 28 + g 32 in
  let ftValue := 30 - g 2 + g 6 + g 10 - g 14 - g 18 + g 22 - g 26 - g 30 in
  let jpValue := 18 + g 1 + g 5 - g 9 + g 13 - g 17 + g 21 - g 25 + g 29 in
  let ei := if ieValue >? 24 then lit "E" else lit "I" in
  let sn := if snValue >? 24 then lit "N" else lit "S" in
  let ft := if ftValue >? 24 then lit "T" else lit "F" in
  let jp := if jpValue >? 24 then lit "P" else lit "J" in
  {| EI := ieValue; SN := snValue; FT := ftValue; JP := jpValue;
     type := ei ++ sn ++ ft ++ jp |}.

End Scoring.

(** ** Phone canonicaliser (dataService.ts, lines 7-17) *)

Module Phone.

Definition sentinel : list N := lit "00000000000".

Definition normalizePhoneNumber (phone : list N) : list N :=
  match phone with
  | [] => sentinel                                   (* if (!phone) *)
  | _ =>
      let cleaned := digits_only phone in
      if (length cleaned =? 0)%nat then sentinel
      else
        let cleaned :=
          if startsWith cleaned (lit "8") then lit "7" ++ drop 1 cleaned
          else if (length cleaned =? 10)%nat then lit "7" ++ cleaned
          else cleaned in
        if (11 <? length cleaned)%nat then slice_last 11 cleaned else cleaned
  end.

(** The last step of [normalizePhoneNumber] on its own: a string longer
    than 11 keeps its last 11 code units. *)
Definition keep11 (s : list N) : list N :=
  if (11 <? length s)%nat then drop (length s - 11) s else s.

End Phone.

(** ** Message tag codec (dataService.ts, lines 250-277 and 343-356) *)

Module Codec.

Inductive tag := TagLike | TagDislike | TagNeutral.

Inductive rating := Like | Dislike.

Definition tag_text (t : tag) : list N :=
  match t with
  | TagLike => lit "[TAG:like]"
  | TagDislike => lit "[TAG:dislike]"
  | TagNeutral => lit "[TAG:neutral]"
  end.

(** One attempt of [/\[TAG:(like|dislike|neutral)\]\s*$/] at the head of
    [s]: an alternative, then only white space up to the end of input. *)
Definition tag_here (t : tag) (s : list N) : bool :=
  startsWith s (tag_text t) && forallb is_space (drop (length (tag_text t)) s).

Definition tag_match_here (s : list N) : option tag :=
  if tag_here TagLike s then Some TagLike
  else if tag_here TagDislike s then Some TagDislike
  else if tag_here TagNeutral s then Some TagNeutral
  else None.

(** [text.match(/\[TAG:(like|dislike|neutral)\]\s*$/)]: the leftmost
    position where an attempt succeeds; the result is the text before
    the match and the captured group. The match reaches the end of the
    input, so nothing follows it. *)
Fixpoint tag_search (s : list N) : option (list N * tag) :=
  match tag_match_here s with
  | Some t => Some ([], t)
  | None =>
      match s with
      | [] => None
      | c :: s' =>
          match tag_search s' with
          | Some (before, t) => Some (c :: before, t)
          | None => None
          end
      end
  end.

(** [text.replace(/\[TAG:(like|dislike|neutral)\]\s*$/, '')] *)
Definition strip_tag_end (s : list N) : list N :=
  match tag_search s with
  | Some (before, _) => before
  | None => s
  end.

Definition legacy_markers : list (list N) :=
  [lit " #liked"; lit " #disliked"; lit " #neutral"].

(** One attempt of [/ #liked| #disliked| #neutral/] at the head of [s]:
    the length of the first alternative that matches. *)
Definition legacy_match_here (s : list N) : option nat :=
  length <$> List.find (startsWith s) legacy_markers.

(** [text.replace(/ #liked| #disliked| #neutral/g, '')]: one scan from
    left to right; a match is dropped and the scan resumes after it.
    [skip] counts the code units of the current match still to drop. *)
Fixpoint replace_legacy_from (skip : nat) (s : list N) : list N :=
  match s with
  | [] => []
  | c :: s' =>
      match skip with
      | S k => replace_legacy_from k s'
      | O =>
          match legacy_match_here s with
          | Some (S k) => replace_legacy_from k s'
          | _ => c :: replace_legacy_from O s'
          end
      end
  end.

Definition replace_legacy (s : list N) : list N := replace_legacy_from O s.

Record decoded := mkDecoded {
  text : list N;
  rating_of : option rating
}.

(** The body of the [data.map] callback of [getChatHistory], on the
    stored [content] of one row. *)
Definition decode (content : list N) : decoded :=
  match tag_search content with
  | Some (before, t) =>
      {| text := trimEnd before;
         rating_of := match t with
                      | TagLike => Some Like
                      | TagDislike => Some Dislike
                      | TagNeutral => None
                      end |}
  | None =>
      {| text := trimEnd (replace_legacy content);
         rating_of := if includes content (lit " #liked") then Some Like
                      else if includes content (lit " #disliked") then Some Dislike
                      else None |}
  end.

(** Step 2 of [rateMessage], also the cleaning of each candidate in its
    [records.find] callback: both tag forms removed, then [trimEnd]. *)
Definition clean_content (content : list N) : list N :=
  trimEnd (replace_legacy (strip_tag_end content)).

(** Step 3 of [rateMessage]. *)
Definition new_suffix (r : option rating) : list N :=
  match r with
  | Some Like => lit "[TAG:like]"
  | Some Dislike => lit "[TAG:dislike]"
  | None => lit "[TAG:neutral]"
  end.

Definition encode (originalContent : list N) (r : option rating) : list N :=
  clean_content originalContent ++ new_suffix r.

(** The tag a rating is written as, and the rating a tag is read as. *)
Definition tag_of (r : option rating) : tag :=
  match r with
  | Some Like => TagLike
  | Some Dislike => TagDislike
  | None => TagNeutral
  end.

Definition rating_of_tag (t : tag) : option rating :=
  match t with
  | TagLike => Some Like
  | TagDislike => Some Dislike
  | TagNeutral => None
  end.

Definition has_legacy_marker (s : list N) : bool :=
  existsb (includes s) legacy_markers.

Definition has_bracket_tag (s : list N) : bool :=
  existsb (fun t => includes s (tag_text t)) [TagLike; TagDislike; TagNeutral].

(** A string carries no tag of either form. *)
Definition tag_free (s : list N) : Prop :=
  has_bracket_tag s = false /\ has_legacy_marker s = false.

End Codec.

(** ** Stored content, read by its shape

    What a stored content stands for, in terms of the shape of the
    string alone: an optional bracket tag at the very end, and legacy
    markers in the text before it. These definitions do not follow the
    code; the code's [clean_content], [decode] and [encode] are compared
    with them in the second part. *)

Module Reading.

Import Codec.

(** A text cut at its legacy markers: pieces that hold no marker, each
    followed by one marker, and a rest that holds none. [with_markers]
    is the text, [without_markers] the same text with every one of
    these markers left out. *)
Definition with_markers (pieces : list (list N * list N)) (rest : list N)
    : list N :=
  foldr (fun pm acc => pm.1 ++ pm.2 ++ acc) rest pieces.

Definition without_markers (pieces : list (list N * list N)) (rest : list N)
    : list N :=
  foldr (fun pm acc => pm.1 ++ acc) rest pieces.

Definition marker_cut (pieces : list (list N * list N)) (rest : list N) : Prop :=
  Forall (fun pm => has_legacy_marker pm.1 = false /\ In pm.2 legacy_markers)
    pieces /\
  has_legacy_marker rest = false.

(** The content ends in a bracket tag, with nothing but white space
    after it. *)
Definition ends_in_tag (s : list N) : Prop :=
  exists b t w, forallb is_space w = true /\ s = b ++ tag_text t ++ w.

(** The text before the trailing bracket tag, or the whole content
    where there is none. *)
Definition body_of (s body : list N) : Prop :=
  (~ ends_in_tag s /\ body = s) \/
  (exists t w, forallb is_space w = true /\ s = body ++ tag_text t ++ w).

(** The stored content [s] stands for the display text [u]: the
    trailing bracket tag (and the white space after it) is left out,
    then every legacy marker of the cut, then white space at the end. *)
Definition displays (s u : list N) : Prop :=
  exists body pieces rest,
    body_of s body /\ marker_cut pieces rest /\
    body = with_markers pieces rest /\
    u = trimEnd (without_markers pieces rest).

(** The bracket tag a rating is stored as. *)
Definition rating_tag (r : option rating) : list N :=
  match r with
  | Some Like => lit "[TAG:like]"
  | Some Dislike => lit "[TAG:dislike]"
  | None => lit "[TAG:neutral]"
  end.

End Reading.

(** ** Awaited network calls *)

Module Net.

Import Scoring.

Inductive role := User | Model.

Record RegistrationData := mkRegistration {
  firstName : list N;
  lastName : list N;
  phone : list N;
  age : list N;
  password : list N;
  interests : list (list N)
}.

(** A row of [chat_history] as the client reads it. *)
Record row := mkRow { row_id : N; row_content : list N }.

(** The requests the client sends. [PostQuizResult] carries the values
    its JSON payload is built from. *)
Inductive request :=
| GetRecentByRole (cleanPhone : list N) (r : role) (limit : nat)
| GetContentById (recordId : N)
| PatchContent (recordId : N) (newContent : list N)
| PostChatHistory (cleanPhone : list N) (r : role) (finalContent : list N)
| PostQuizResult (cleanPhone : list N) (result : ScoringResult)
    (user : RegistrationData).

Definition is_write (rq : request) : bool :=
  match rq with
  | GetRecentByRole _ _ _ | GetContentById _ => false
  | PatchContent _ _ | PostChatHistory _ _ _ | PostQuizResult _ _ _ => true
  end.

(** What [await fetch(...)] gives back: a rejection, or a response with
    its status and what [response.json()] yields ([None] when it
    rejects). *)
Inductive reply :=
| NetworkError
| Response (status : Z) (body : option (list row)).

(** [response.ok] *)
Definition ok (status : Z) : bool := (200 <=? status) && (status <=? 299).

(** An asynchronous function: it returns, or it waits for a fetch, or it
    writes to the console and goes on. *)
Inductive io (A : Type) : Type :=
| Ret (a : A)
| Fetch (rq : request) (k : reply -> io A)
| ConsoleError (msg : string) (k : io A).

Arguments Ret {A} a.
Arguments Fetch {A} rq k.
Arguments ConsoleError {A} msg k.

Inductive event :=
| Sent (rq : request)
| Logged (msg : string).

(** Running an asynchronous function against a remote side with state
    [S]: the value returned and what was observed, in order. *)
Fixpoint run {S A : Type} (srv : S -> request -> S * reply) (s : S)
    (m : io A) : A * list event :=
  match m with
  | Ret a => (a, [])
  | Fetch rq k =>
      let '(s', rp) := srv s rq in
      let '(a, tr) := run srv s' (k rp) in
      (a, Sent rq :: tr)
  | ConsoleError msg k =>
      let '(a, tr) := run srv s k in
      (a, Logged msg :: tr)
  end.

(** A remote side that gives the same reply to every request. *)
Definition answer_with (rp : reply) : unit -> request -> unit * reply :=
  fun s _ => (s, rp).

Definition writes (tr : list event) : list request :=
  omap (fun e => match e with
                 | Sent rq => if is_write rq then Some rq else None
                 | Logged _ => None
                 end) tr.

End Net.

(** ** Persistence helpers (dataService.ts) *)

Module DataService.

Import Scoring Phone Codec Net.

Record ChatMessageData := mkMessage {
  msg_id : option N;
  msg_role : role;
  msg_text : list N;
  msg_rating : option rating
}.

(** JavaScript truthiness of an optional numeric identifier. *)
Definition truthy_id (i : option N) : option N :=
  match i with
  | Some 0%N | None => None
  | Some n => Some n
  end.

(** Lines 211-232. The empty [catch] swallows a rejected fetch. *)
Definition saveChatMessage (phone : list N) (r : role) (content : list N)
    : io unit :=
  let cleanPhone := normalizePhoneNumber phone in
  if bool_decide (cleanPhone = sentinel) then Ret tt
  else
    let finalContent :=
      match r with
      | Model => content ++ lit "[TAG:neutral]"
      | User => content
      end in
    Fetch (PostChatHistory cleanPhone r finalContent) (fun _ => Ret tt).

(** The [catch] block of [rateMessage]. *)
Definition rate_caught : io unit :=
  ConsoleError "Error rating message:" (Ret tt).

(** Lines 341-367 of [rateMessage]: steps 2 to 4. *)
Definition rate_write (recordId : option N) (originalContent : list N)
    (rating : option rating) : io unit :=
  match truthy_id recordId with
  | None => Ret tt                                   (* if (!recordId) return *)
  | Some i =>
      Fetch (PatchContent i (encode originalContent rating))
        (fun rp => match rp with
                   | NetworkError => rate_caught
                   | Response _ _ => Ret tt
                   end)
  end.

(** The [records.find] callback (lines 315-322): the stored content,
    cleaned of both tag forms and of trailing white space, is the text
    of the message in memory. *)
Definition same_text (message : ChatMessageData) (r : row) : bool :=
  bool_decide (clean_content (row_content r) = msg_text message).


(** Lines 299-372. *)
Definition rateMessage (phone : list N) (message : ChatMessageData)
    (rating : option rating) : io unit :=
  let cleanPhone := normalizePhoneNumber phone in
  if bool_decide (cleanPhone = sentinel) then Ret tt
  else
    match truthy_id (msg_id message) with
    | None =>
        Fetch (GetRecentByRole cleanPhone (msg_role message) 5)
          (fun rp =>
             match rp with
             | NetworkError => rate_caught
             | Response status body =>
                 if ok status then
                   match body with
                   | None => rate_caught
                   | Some records =>
                       match List.find (same_text message) records with
                       | Some found =>
                           rate_write (Some (row_id found)) (row_content found) rating
                       | None => rate_write None (msg_text message) rating
                       end
                   end
                 else rate_write None (msg_text message) rating
             end)
    | Some recordId =>
        Fetch (GetContentById recordId)
          (fun rp =>
             match rp with
             | NetworkError => rate_caught
             | Response status body =>
                 if ok status then
                   match body with
                   | None => rate_caught
                   | Some (r0 :: _) => rate_write (Some recordId) (row_content r0) rating
                   | Some [] => rate_write (Some recordId) (msg_text message) rating
                   end
                 else rate_write (Some recordId) (msg_text message) rating
             end)
    end.

Section Configured.

(** [SUPABASE_URL && SUPABASE_ANON_KEY], from the constants module. *)
Variable configured : bool.

(** Lines 119-158. A body that does not parse is replaced by [{}] by the
    inner [.catch]; only the status decides. *)
Definition saveResultToSpreadsheet (result : ScoringResult)
    (user : RegistrationData) : io bool :=
  if negb configured then Ret false
  else
    Fetch (PostQuizResult (normalizePhoneNumber (phone user)) result user)
      (fun rp =>
         match rp with
         | NetworkError =>
             ConsoleError "Network or parsing error during save:" (Ret false)
         | Response status _ =>
             if ok status then Ret true
             else ConsoleError "Supabase Save Error Details:"
                    (Ret (status =? 409))
         end).

End Configured.

(** The value [saveResultToSpreadsheet] returns once a reply is in. *)
Definition save_succeeds (rp : reply) : bool :=
  match rp with
  | NetworkError => false
  | Response status _ => ok status || (status =? 409)
  end.

End DataService.

(** ** Quiz flow controller (part_000, lines 109-184 and 355-448) *)

Module Flow.

Import Scoring Phone Net DataService.

Inductive ViewState :=
| Welcome | AuthChoice | Login | Register | Interests | Tutorial | Quiz | Result.

(** The values [authError] takes in the modelled handlers: the empty
    string and the message set when the remote save fails. *)
Inductive auth_error := AuthNone | AuthSaveFailed | AuthOther (msg : string).

(** What [localStorage] holds under a key: the JSON text of a result or
    of the registration record, or plain text. *)
Inductive stored :=
| StoredResult (r : ScoringResult)
| StoredUser (u : RegistrationData)
| StoredText (t : list N).

Definition STORAGE_KEY_RESULT : string := "personality_quiz_result_v16".
Definition STORAGE_KEY_USER : string := "personality_quiz_user_v16".
Definition KEY_USER_PHONE : string := "user_phone".

(** The closures handed to [setTimeout], with what they close over. *)
Inductive callback :=
| AfterPulse (step : Z) (updatedAnswers : gmap Z Z) (reg : RegistrationData)
| AfterFull (updatedAnswers : gmap Z Z) (reg : RegistrationData)
| AfterShatter
| StepBy (d : Z).

(** Continuations waiting in the event loop: a timer, or [finishQuiz]
    suspended at [await saveResultToSpreadsheet(...)]. *)
Inductive pending_item :=
| Timeout (ms : nat) (cb : callback)
| Awaiting (rq : request) (k : reply -> io bool).

Inductive effect :=
| SetResult (r : ScoringResult)
| LocalSet (key : string) (v : stored)
| Send (rq : request)
| Console (msg : string).

Record flow := mkFlow {
  view : ViewState;
  currentStep : Z;
  isAnimating : bool;
  isPulsing : bool;
  isShattering : bool;
  isSending : bool;
  answers : gmap Z Z;
  registration : RegistrationData;
  result : option ScoringResult;
  authError : auth_error;
  resetTimer : Z;
  localStorage : gmap string stored;
  pending : list pending_item;
  effects : list effect
}.

Definition set_view (x : ViewState) (st : flow) : flow :=
  let 'mkFlow _ b c d e f g h i j k l m n := st in
  mkFlow x b c d e f g h i j k l m n.

Definition set_currentStep (x : Z) (st : flow) : flow :=
  let 'mkFlow a _ c d e f g h i j k l m n := st in
  mkFlow a x c d e f g h i j k l m n.

Definition set_isAnimating (x : bool) (st : flow) : flow :=
  let 'mkFlow a b _ d e f g h i j k l m n := st in
  mkFlow a b x d e f g h i j k l m n.

Definition set_isPulsing (x : bool) (st : flow) : flow :=
  let 'mkFlow a b c _ e f g h i j k l m n := st in
  mkFlow a b c x e f g h i j k l m n.

Definition set_isShattering (x : bool) (st : flow) : flow :=
  let 'mkFlow a b c d _ f g h i j k l m n := st in
  mkFlow a b c d x f g h i j k l m n.

Definition set_isSending (x : bool) (st : flow) : flow :=
  let 'mkFlow a b c d e _ g h i j k l m n := st in
  mkFlow a b c d e x g h i j k l m n.

Definition set_answers (x : gmap Z Z) (st : flow) : flow :=
  let 'mkFlow a b c d e f _ h i j k l m n := st in
  mkFlow a b c d e f x h i j k l m n.

Definition set_result (x : option ScoringResult) (st : flow) : flow :=
  let 'mkFlow a b c d e f g h _ j k l m n := st in
  mkFlow a b c d e f g h x j k l m n.

Definition set_authError (x : auth_error) (st : flow) : flow :=
  let 'mkFlow a b c d e f g h i _ k l m n := st in
  mkFlow a b c d e f g h i x k l m n.

Definition set_resetTimer (x : Z) (st : flow) : flow :=
  let 'mkFlow a b c d e f g h i j _ l m n := st in
  mkFlow a b c d e f g h i j x l m n.

Definition set_localStorage (x : gmap string stored) (st : flow) : flow :=
  let 'mkFlow a b c d e f g h i j k _ m n := st in
  mkFlow a b c d e f g h i j k x m n.

Definition set_pending (x : list pending_item) (st : flow) : flow :=
  let 'mkFlow a b c d e f g h i j k l _ n := st in
  mkFlow a b c d e f g h i j k l x n.

Definition set_effects (x : list effect) (st : flow) : flow :=
  let 'mkFlow a b c d e f g h i j k l m _ := st in
  mkFlow a b c d e f g h i j k l m x.

Definition log (e : effect) (st : flow) : flow :=
  set_effects (effects st ++ [e]) st.

Definition setTimeout (cb : callback) (ms : nat) (st : flow) : flow :=
  set_pending (pending st ++ [Timeout ms cb]) st.

Definition setResult (r : ScoringResult) (st : flow) : flow :=
  log (SetResult r) (set_result (Some r) st).

Definition localStorage_setItem (key : string) (v : stored) (st : flow) : flow :=
  log (LocalSet key v) (set_localStorage (<[key := v]> (localStorage st)) st).

Section Quiz.

(** The identifiers of the questions of the constants module, in order,
    and whether the remote store is configured. *)
Variable QUESTIONS : list Z.
Variable configured : bool.

Definition QUESTIONS_length : Z := Z.of_nat (length QUESTIONS).

(** [QUESTIONS[step].id]; [None] where [QUESTIONS[step]] is [undefined]
    and the property access throws. *)
Definition question_id (step : Z) : option Z :=
  if step <? 0 then None else QUESTIONS !! Z.to_nat step.

(** [finishQuiz] up to its [await] (lines 356-364). *)
Definition finishQuiz_begin (finalAnswers : gmap Z Z) (reg : RegistrationData)
    (st : flow) : flow :=
  let st := set_isSending true st in
  let st := set_authError AuthNone st in
  let finalResult := calculateResults finalAnswers in
  let st := setResult finalResult st in
  let st := localStorage_setItem STORAGE_KEY_RESULT (StoredResult finalResult) st in
  let st := localStorage_setItem STORAGE_KEY_USER (StoredUser reg) st in
  localStorage_setItem KEY_USER_PHONE
    (StoredText (normalizePhoneNumber (phone reg))) st.

(** [finishQuiz] after its [await] (lines 369-379); [fetchAnalysis] is
    started and not awaited, it touches none of the fields kept here. *)
Definition finishQuiz_end (saved : bool) (st : flow) : flow :=
  let st := set_isSending false st in
  let st := set_resetTimer 30 st in
  if saved then st else set_authError AuthSaveFailed st.

(** [await saveResultToSpreadsheet(...)] and what follows it: the rest
    of [finishQuiz], then the rest of the 600 ms callback that awaited
    [finishQuiz], which sets the shatter timer. A fetch suspends all of
    it until its reply is delivered. *)
Fixpoint resume_save (m : io bool) (st : flow) : flow :=
  match m with
  | Ret saved => setTimeout AfterShatter 1200 (finishQuiz_end saved st)
  | ConsoleError msg k => resume_save k (log (Console msg) st)
  | Fetch rq k => set_pending (pending st ++ [Awaiting rq k]) (log (Send rq) st)
  end.

(** [await finishQuiz(updatedAnswers)] inside the 600 ms callback. *)
Definition finishQuiz (finalAnswers : gmap Z Z) (reg : RegistrationData)
    (st : flow) : flow :=
  let st := finishQuiz_begin finalAnswers reg st in
  resume_save
    (saveResultToSpreadsheet configured (calculateResults finalAnswers) reg) st.

Definition fire (cb : callback) (st : flow) : flow :=
  match cb with
  | AfterPulse step updatedAnswers reg =>
      if step >=? QUESTIONS_length - 1 then
        let st := set_currentStep QUESTIONS_length st in
        let st := set_isPulsing false st in
        setTimeout (AfterFull updatedAnswers reg) 600 st
      else
        let st := set_isAnimating true st in
        setTimeout (StepBy 1) 300 st
  | AfterFull updatedAnswers reg =>
      let st := set_isShattering true st in
      finishQuiz updatedAnswers reg st
  | AfterShatter =>
      let st := set_isShattering false st in
      set_view Result st
  | StepBy d =>
      let st := set_currentStep (currentStep st + d) st in
      let st := set_isAnimating false st in
      set_isPulsing false st
  end.

(** The handlers, read off the current render: each sees the state as
    it is when it is called. [None] is a [TypeError] thrown before any
    setter ran, which leaves the state as it was. *)
Definition handleOptionSelect (val : Z) (st : flow) : option flow :=
  if isAnimating st || isPulsing st || isShattering st then Some st
  else
    match question_id (currentStep st) with
    | None => None
    | Some qid =>
        let updatedAnswers := <[qid := val]> (answers st) in
        let st' := set_answers updatedAnswers st in
        let st' := set_isPulsing true st' in
        Some (setTimeout
                (AfterPulse (currentStep st) updatedAnswers (registration st))
                400 st')
    end.

Definition handleNextStep (st : flow) : option flow :=
  if isAnimating st || isSending st || isShattering st then Some st
  else
    match question_id (currentStep st) with
    | None => None
    | Some qid =>
        match answers st !! qid with
        | None => Some st
        | Some currentAnswer =>
            if currentStep st <? QUESTIONS_length - 1 then
              let st' := set_isAnimating true st in
              Some (setTimeout (StepBy 1) 300 st')
            else handleOptionSelect currentAnswer st
        end
    end.

Definition handlePrevStep (st : flow) : option flow :=
  if isAnimating st || (currentStep st =? 0) || isShattering st then Some st
  else
    let st' := set_isAnimating true st in
    Some (setTimeout (StepBy (-1)) 300 st').

(** The buttons of [QuizContent] as [App] renders them (lines 1313-1333
    and 148-176): shown in the quiz view only, for
    [displayStep = Math.min(currentStep, QUESTIONS.length - 1)]. *)
Definition displayStep (st : flow) : Z :=
  Z.min (currentStep st) (QUESTIONS_length - 1).

Definition rendered (st : flow) : bool :=
  match view st, question_id (displayStep st) with
  | Quiz, Some _ => true
  | _, _ => false
  end.

Definition currentAnswer (st : flow) : option Z :=
  qid ← question_id (displayStep st); answers st !! qid.

Definition option_disabled (st : flow) : bool :=
  isAnimating st || isPulsing st.

Definition prev_disabled (st : flow) : bool :=
  (displayStep st =? 0) || isAnimating st || isPulsing st.

Definition next_disabled (st : flow) : bool :=
  match currentAnswer st with None => true | Some _ => false end
  || isSending st || isAnimating st || isPulsing st.

(** What the event loop can take next. Timers and replies may come in
    any order: every order the real delays allow is among the runs. *)
Inductive event :=
| OptionSelect (val : Z)        (* a call of handleOptionSelect *)
| NextStep                      (* a call of handleNextStep *)
| PrevStep                      (* a call of handlePrevStep *)
| ClickOption (val : Z)         (* a click on a scale button *)
| ClickNext
| ClickPrev
| Elapse (n : nat)              (* the n-th pending timer fires *)
| Deliver (n : nat) (rp : reply) (* the n-th pending fetch settles *).

Definition settle (o : option flow) (st : flow) : flow :=
  match o with
  | Some st' => st'
  | None => st
  end.

Definition step (e : event) (st : flow) : flow :=
  match e with
  | OptionSelect val => settle (handleOptionSelect val st) st
  | NextStep => settle (handleNextStep st) st
  | PrevStep => settle (handlePrevStep st) st
  | ClickOption val =>
      if rendered st && negb (option_disabled st)
      then settle (handleOptionSelect val st) st else st
  | ClickNext =>
      if rendered st && negb (next_disabled st)
      then settle (handleNextStep st) st else st
  | ClickPrev =>
      if rendered st && negb (prev_disabled st)
      then settle (handlePrevStep st) st else st
  | Elapse n =>
      match pending st !! n with
      | Some (Timeout _ cb) => fire cb (set_pending (delete n (pending st)) st)
      | _ => st
      end
  | Deliver n rp =>
      match pending st !! n with
      | Some (Awaiting _ k) =>
          resume_save (k rp) (set_pending (delete n (pending st)) st)
      | _ => st
      end
  end.

Definition run (evs : list event) (st : flow) : flow :=
  foldl (fun s e => step e s) st evs.

(** The confirming or the advancing guard is set. *)
Definition guarded (st : flow) : bool := isPulsing st || isAnimating st.






End Quiz.


(** A session in the quiz view, used in the examples. *)
Definition demo_registration : RegistrationData :=
  {| firstName := lit "Anna"; lastName := lit "Ivanova";
     phone := lit "+7 (915) 123-45-67"; age := lit "30";
     password := lit "secret1"; interests := [] |}.

Definition demo_flow (step : Z) (pulsing sending : bool) (ans : gmap Z Z) : flow :=
  {| view := Quiz; currentStep := step; isAnimating := false;
     isPulsing := pulsing; isShattering := false; isSending := sending;
     answers := ans; registration := demo_registration; result := None;
     authError := AuthNone; resetTimer := 30; localStorage := ∅;
     pending := []; effects := [] |}.

End Flow.

(** ** Registration form (part_000, lines 489-511, 552-577, 1012-1027) *)

Module Form.

(** [s.substring(a, b)] for [a <= b]. *)
Definition substring (a b : nat) (s : list N) : list N :=
  take (b - a) (drop a s).

(** [s.trimStart()] *)
Fixpoint trimStart (s : list N) : list N :=
  match s with
  | [] => []
  | c :: s' => if is_space c then trimStart s' else s
  end.

(** [s.trim()] *)
Definition trim (s : list N) : list N := trimEnd (trimStart s).

(** [s[0] === c] *)
Definition first_is (c : N) (s : list N) : bool :=
  match s with
  | [] => false
  | c0 :: _ => (c0 =? c)%N
  end.

(** [handlePhoneChange], lines 498-502: the digits that are kept. *)
Definition phone_clean (digits : list N) : list N :=
  let clean := digits in
  let clean := if first_is 55 clean then lit "8" ++ drop 1 clean else clean in
  let clean := if negb (first_is 56 clean) then lit "8" ++ clean else clean in
  if (11 <? length clean)%nat then substring 0 11 clean else clean.

(** [handlePhoneChange], lines 504-508: the groups, set apart by
    blanks. *)
Definition phone_group (clean : list N) : list N :=
  let res := take 1 clean in                          (* clean[0] *)
  let res :=
    if (1 <? length clean)%nat
    then res ++ lit " " ++ substring 1 4 clean else res in
  let res :=
    if (4 <? length clean)%nat
    then res ++ lit " " ++ substring 4 7 clean else res in
  let res :=
    if (7 <? length clean)%nat
    then res ++ lit " " ++ substring 7 9 clean else res in
  if (9 <? length clean)%nat
  then res ++ lit " " ++ substring 9 11 clean else res.

(** [handlePhoneChange]: the new value of [registration.phone] for the
    text [raw] of the input field. *)
Definition handlePhoneChange (raw : list N) : list N :=
  match digits_only raw with
  | [] => []                                          (* if (!digits) *)
  | digits => phone_group (phone_clean digits)
  end.

(** [s.split('/')[0]] *)
Fixpoint before_slash (s : list N) : list N :=
  match s with
  | [] => []
  | c :: s' => if (c =? 47)%N then [] else c :: before_slash s'
  end.

(** [it.split('/')[0].trim()]: the label under which an interest is
    kept and shown. *)
Definition cleanLabel (it : list N) : list N := trim (before_slash it).

(** The click on the button of the interest [it] (lines 1013-1021): the
    new list of interests. *)
Definition clickInterest (it : list N) (current : list (list N))
    : list (list N) :=
  let label := cleanLabel it in
  let isSel := bool_decide (label ∈ current) in
  if isSel
  then List.filter (fun x => negb (bool_decide (x = label))) current
  else current ++ [label].

(** Enter in the input field (lines 552-577), and the same step of the
    button that leaves the view (lines 1060-1065): the new list of
    interests for the text [interestInput]. *)
Definition enterInterest (interestInput : list N) (current : list (list N))
    : list (list N) :=
  match trim interestInput with
  | [] => current
  | newInterest =>
      let cleanNewInterest := cleanLabel newInterest in
      if bool_decide (cleanNewInterest ∈ current) then current
      else current ++ [cleanNewInterest]
  end.

End Form.

(** ** Chat (part_000, lines 650-665 and 682-700) *)

Module Chat.

Import Codec Net DataService Form.

(** One attempt of [/\[TAG:(like|dislike|neutral)\]/] at the head of
    [s]: the length of the alternative that matches. *)
Definition bracket_match_here (s : list N) : option nat :=
  length <$> List.find (startsWith s)
               [tag_text TagLike; tag_text TagDislike; tag_text TagNeutral].

(** [s.replace(/\[TAG:(like|dislike|neutral)\]/g, '')], one scan from
    the left as for the legacy pattern. *)
Fixpoint remove_tags_from (skip : nat) (s : list N) : list N :=
  match s with
  | [] => []
  | c :: s' =>
      match skip with
      | S k => remove_tags_from k s'
      | O =>
          match bracket_match_here s with
          | Some (S k) => remove_tags_from k s'
          | _ => c :: remove_tags_from O s'
          end
      end
  end.

Definition remove_tags (s : list N) : list N := remove_tags_from O s.

(** Line 651: the text of the reply once the stream has ended. *)
Definition cleanFullText (fullText : list N) : list N :=
  trim (remove_tags fullText).

(** [await m; k(...)]: one asynchronous function after another. *)
Fixpoint io_bind {A B : Type} (m : io A) (k : A -> io B) : io B :=
  match m with
  | Ret a => k a
  | Fetch rq c => Fetch rq (fun rp => io_bind (c rp) k)
  | ConsoleError msg c => ConsoleError msg (io_bind c k)
  end.

(** Lines 663-665: the two awaited saves that end [handleSendMessage],
    for the trimmed text [text] of the user and the streamed reply. *)
Definition save_exchange (storedPhone text fullText : list N) : io unit :=
  io_bind (saveChatMessage storedPhone User text)
    (fun _ => saveChatMessage storedPhone Model (cleanFullText fullText)).



End Chat.

(** ** Runs of the quiz *)

Module Session.

Import Scoring Net DataService Flow.

(** The scale of [QuizContent] (line 141) offers the magnitudes 1 to 5:
    a selection that comes from it carries one of them. *)
Definition scale_input (e : event) : bool :=
  match e with
  | OptionSelect v | ClickOption v => (1 <=? v) && (v <=? 5)
  | _ => true
  end.

(** A pending continuation that ends in the result view: the shatter
    timer, or a save that is awaited. *)
Definition commits (item : pending_item) : bool :=
  match item with
  | Timeout _ AfterShatter | Awaiting _ _ => true
  | _ => false
  end.

Section Quiz.

Variable QUESTIONS : list Z.

(** An answer set of the quiz: answers to questions, on the scale. *)
Definition on_scale (m : gmap Z Z) : Prop :=
  forall k v, m !! k = Some v -> k ∈ QUESTIONS /\ 1 <= v <= 5.

Definition item_on_scale (item : pending_item) : Prop :=
  match item with
  | Timeout _ (AfterPulse _ m _) | Timeout _ (AfterFull m _) => on_scale m
  | _ => True
  end.

Definition result_on_scale (r : option ScoringResult) : Prop :=
  match r with
  | None => True
  | Some r => exists m, on_scale m /\ r = calculateResults m
  end.

(** The session holds answers on the scale only: in its state, in the
    closures of its timers, and behind its result. *)
Definition sound (st : flow) : Prop :=
  on_scale (answers st) /\ Forall item_on_scale (pending st) /\
  result_on_scale (result st).

(** The answers after the questions [qs] got the magnitudes [vs]. *)
Definition fill (m : gmap Z Z) (qs vs : list Z) : gmap Z Z :=
  foldl (fun m qv => <[qv.1 := qv.2]> m) m (zip qs vs).

(** Ready for a selection at step [i]: the quiz is shown, no guard is
    set and nothing is pending. *)
Definition ready_at (i : Z) (st : flow) : Prop :=
  view st = Quiz /\ currentStep st = i /\ isAnimating st = false /\
  isPulsing st = false /\ isShattering st = false /\ pending st = [].

End Quiz.

(** Nothing yet leads to the result view: it is not shown and no
    pending continuation ends in it. *)
Definition before_commit (st : flow) : Prop :=
  view st <> Result /\
  Forall (fun item => commits item = false) (pending st).

(** The result view has a result to show, now and when it comes up. *)
Definition result_ready (st : flow) : Prop :=
  is_Some (result st) \/ before_commit st.

(** What a handler that returns leaves behind: the state as it was, or
    one more timer that is not the shatter timer. *)
Definition handler_shape (st st' : flow) : Prop :=
  st' = st \/
  (view st' = view st /\ result st' = result st /\
   exists ms cb, pending st' = pending st ++ [Timeout ms cb] /\
                 commits (Timeout ms cb) = false).

(** A respondent who answers each question once and waits for the
    timers: a click on the scale, the confirming timer, the advancing
    timer (after the last question: the timer of the full bar); in the
    end the reply of the store and the shatter timer. *)
Definition answer_all (vs : list Z) (rp : reply) : list event :=
  flat_map (fun v => [ClickOption v; Elapse 0; Elapse 0]) vs
  ++ [Deliver 0 rp; Elapse 0].

End Session.

(* ================================================================== *)
(** * Part II: properties                                              *)
(* ================================================================== *)


(** ** String primitives *)

Module JSFacts.

Lemma startsWith_spec (s p : list N) :
  startsWith s p = true <-> exists r, s = p ++ r.
Proof.
  revert s. induction p as [|b p IH]; intros s; simpl.
  - split; [intros _; by exists s|done].
  - destruct s as [|a s].
    + split; [done|intros [r Hr]; discriminate].
    + rewrite andb_true_iff, N.eqb_eq, IH. split.
      * intros [-> [r ->]]. by exists r.
      * intros [r Hr]. injection Hr as -> ->. eauto.
Qed.

Lemma startsWith_self_app (p r : list N) : startsWith (p ++ r) p = true.
Proof. apply startsWith_spec. by exists r. Qed.

Lemma includes_spec (s p : list N) :
  includes s p = true <-> exists a b, s = a ++ p ++ b.
Proof.
  induction s as [|c s IH]; simpl.
  - rewrite orb_false_r, startsWith_spec. split.
    + intros [r Hr]. by exists [], r.
    + intros (a & b & H). destruct a; [by exists b|discriminate].
  - rewrite orb_true_iff, startsWith_spec, IH. split.
    + intros [[r Hr]|(a & b & ->)]; [by exists [], r|by exists (c :: a), b].
    + intros ([|c' a] & b & H); [left; by exists b|].
      injection H as -> ->. right. by exists a, b.
Qed.

Lemma includes_cons (c : N) (s p : list N) :
  includes s p = true -> includes (c :: s) p = true.
Proof. intros H. simpl. rewrite H. apply orb_true_r. Qed.

Lemma includes_app_l (s w p : list N) :
  includes s p = true -> includes (s ++ w) p = true.
Proof.
  rewrite !includes_spec. intros (a & b & ->). exists a, (b ++ w).
  by rewrite <- !app_assoc.
Qed.

Lemma includes_app_r (w s p : list N) :
  includes s p = true -> includes (w ++ s) p = true.
Proof.
  rewrite !includes_spec. intros (a & b & ->). exists (w ++ a), b.
  by rewrite <- !app_assoc.
Qed.

(** A pattern found at the head of [x ++ y] lies within [x], or runs
    over the seam and then holds the first code unit of [y] somewhere
    after its own first one. *)
Lemma startsWith_seam (x y p : list N) (a c : N) (x' y' : list N) :
  x = c :: x' -> y = a :: y' ->
  (forall b, In b (tail p) -> b <> a) ->
  startsWith (x ++ y) p = true -> startsWith x p = true.
Proof.
  intros -> -> Hp. revert c x'.
  destruct p as [|b p]; [done|]. simpl in Hp. intros c x'. simpl.
  rewrite !andb_true_iff. intros [Hcb H]. split; [done|].
  clear c Hcb b. revert x' H. induction p as [|b p IH]; intros x' H; [done|].
  destruct x' as [|c x']; simpl in H |- *.
  - apply andb_true_iff in H as [H _]. apply N.eqb_eq in H.
    exfalso. apply (Hp b); [by left|done].
  - apply andb_true_iff in H as [H1 H2]. rewrite H1. simpl.
    apply IH; [|done]. intros b' Hb'. apply Hp. by right.
Qed.

Lemma includes_seam (x y p : list N) (a : N) (y' : list N) :
  y = a :: y' ->
  (forall b, In b (tail p) -> b <> a) ->
  includes (x ++ y) p = true ->
  includes x p = true \/ includes y p = true.
Proof.
  intros Hy Hp. induction x as [|c x IH]; intros H; [by right|].
  simpl in H. apply orb_true_iff in H as [H|H].
  - left. simpl. apply (startsWith_seam (c :: x) y p a c x y') in H; try done.
    by rewrite H.
  - destruct (IH H) as [H'|H']; [left; by apply includes_cons|by right].
Qed.

Lemma trimEnd_idemp (s : list N) : trimEnd (trimEnd s) = trimEnd s.
Proof.
  induction s as [|c s IH]; [done|]. simpl.
  destruct (trimEnd s) as [|x t] eqn:E.
  - destruct (is_space c) eqn:Ec; [done|]. simpl. by rewrite Ec.
  - change (trimEnd (c :: x :: t)) with
      (match trimEnd (x :: t) with
       | [] => if is_space c then [] else [c]
       | t' => c :: t'
       end).
    by rewrite IH.
Qed.

(** [trimEnd] cuts a run of white space off the end, and no more. *)
Lemma trimEnd_split (s : list N) :
  exists w, s = trimEnd s ++ w /\ forallb is_space w = true.
Proof.
  induction s as [|c s (w & Hs & Hw)]; [by exists []|]. simpl.
  destruct (trimEnd s) as [|x t] eqn:E.
  - simpl in Hs. subst w. destruct (is_space c) eqn:Ec.
    + exists (c :: s). split; [done|]. simpl. by rewrite Ec, Hw.
    + exists s. by split.
  - exists w. split; [|done]. simpl. by rewrite Hs at 1.
Qed.

Lemma trimEnd_last (s : list N) (x : N) :
  last (trimEnd s) = Some x -> is_space x = false.
Proof.
  induction s as [|c s IH]; [done|]. simpl.
  destruct (trimEnd s) as [|y t] eqn:E.
  - destruct (is_space c) eqn:Ec; [done|]. simpl. by intros [= <-].
  - rewrite last_cons_cons. apply IH.
Qed.

Lemma trimEnd_snoc (s : list N) (x : N) :
  is_space x = false -> trimEnd (s ++ [x]) = s ++ [x].
Proof.
  intros Hx. induction s as [|c s IH]; simpl; [by rewrite Hx|].
  rewrite IH. by destruct s.
Qed.

(** A string with no white space at its end is left as it is. *)
Lemma trimEnd_id (s : list N) :
  (forall x, last s = Some x -> is_space x = false) -> trimEnd s = s.
Proof.
  intros H. destruct (last s) as [x|] eqn:E.
  - apply last_Some in E as [s' ->]. apply trimEnd_snoc. by apply H.
  - apply last_None in E. by subst.
Qed.

Lemma forallb_space_last (w : list N) (x : N) :
  forallb is_space w = true -> last w = Some x -> is_space x = true.
Proof.
  intros Hw Hl. apply last_Some in Hl as [w' ->].
  rewrite forallb_app in Hw. apply andb_true_iff in Hw as [_ Hw].
  simpl in Hw. by rewrite andb_true_r in Hw.
Qed.

End JSFacts.

(** ** Scoring engine *)

Module ScoringFacts.

Import Scoring.

Lemma getVal_default (currentAnswers : gmap Z Z) (id : Z) :
  getVal currentAnswers id = default 3 (currentAnswers !! id).
Proof. unfold getVal. by destruct (currentAnswers !! id). Qed.

(** C1. For every answer set the four axis values are the stated signed
    sums over [aN] (the recorded magnitude of item [N], or [3] when the
    item is absent), and the code is the concatenation, in the order EI,
    SN, FT, JP, of the letter chosen per axis: the first of the pair for
    a value strictly greater than 24, the second otherwise. The function
    is defined on every map and its value depends on the map only. *)
Theorem calculateResults_spec (answers : gmap Z Z) :
  let a := fun n : Z => default 3 (answers !! n) in
  let pick := fun (v : Z) (first second : string) =>
                if bool_decide (24 < v) then lit first else lit second in
  let r := calculateResults answers in
  EI r = 30 - a 3 - a 7 - a 11 + a 15 - a 19 + a 23 + a 27 - a 31 /\
  SN r = 12 + a 4 + a 8 + a 12 + a 16 + a 20 - a 24 - a 28 + a 32 /\
  FT r = 30 - a 2 + a 6 + a 10 - a 14 - a 18 + a 22 - a 26 - a 30 /\
  JP r = 18 + a 1 + a 5 - a 9 + a 13 - a 17 + a 21 - a 25 + a 29 /\
  type r = pick (EI r) "E" "I" ++ pick (SN r) "N" "S"
           ++ pick (FT r) "T" "F" ++ pick (JP r) "P" "J" /\
  length (type r) = 4%nat.
Proof.
  intros a pick r. subst r. unfold calculateResults. cbn [EI SN FT JP type].
  rewrite !getVal_default. fold a.
  repeat split.
  - subst pick. cbn beta.
    repeat match goal with
    | |- context [ ?v >? 24 ] =>
        rewrite (Z.gtb_ltb v 24); destruct (Z.ltb_spec 24 v)
    end;
    repeat case_bool_decide; try lia; reflexivity.
  - repeat match goal with
    | |- context [ if ?b then _ else _ ] => destruct b
    end; reflexivity.
Qed.

(** The empty answer set: every item counts as 3. *)
Example calculateResults_empty :
  calculateResults ∅ = mkResult 24 24 24 24 (lit "ISFJ").
Proof. reflexivity. Qed.

End ScoringFacts.

(** ** Phone canonicaliser *)

Module PhoneFacts.

Import Phone.

Lemma digits_only_all (s : list N) : forallb is_digit (digits_only s) = true.
Proof.
  unfold digits_only. induction s as [|c s IH]; [done|].
  simpl. destruct (is_digit c) eqn:E; simpl; [by rewrite E|done].
Qed.

Lemma forallb_drop {A} (f : A -> bool) (n : nat) (l : list A) :
  forallb f l = true -> forallb f (drop n l) = true.
Proof.
  revert n. induction l as [|x l IH]; intros [|n] H; simpl in *; try done.
  apply andb_true_iff in H as [_ H]. by apply IH.
Qed.

Lemma normalizePhoneNumber_unfold (raw : list N) :
  normalizePhoneNumber raw =
  let d := digits_only raw in
  match d with
  | [] => sentinel
  | c :: rest =>
      if (c =? 56)%N then keep11 (55%N :: rest)
      else if (length d =? 10)%nat then keep11 (55%N :: d)
      else keep11 d
  end.
Proof.
  unfold normalizePhoneNumber. destruct raw as [|c0 raw0]; [done|].
  set (d := digits_only (c0 :: raw0)). cbn zeta.
  destruct d as [|c rest]; [done|].
  change (length (c :: rest) =? 0)%nat with false. cbn match.
  change (startsWith (c :: rest) (lit "8")) with ((c =? 56)%N && true).
  rewrite andb_true_r. destruct (c =? 56)%N; [reflexivity|].
  destruct (length (c :: rest) =? 10)%nat; reflexivity.
Qed.

(** C2, counterexample. A ten-digit string that begins with 8 is not
    prefixed with 7: the leading 8 is rewritten and the result keeps ten
    digits. *)
Lemma normalizePhoneNumber_ten_digits_leading_8 :
  length (digits_only (lit "8123456789")) = 10%nat /\
  normalizePhoneNumber (lit "8123456789") = lit "7123456789" /\
  normalizePhoneNumber (lit "8123456789") <> lit "7" ++ lit "8123456789" /\
  normalizePhoneNumber (lit "8123456789") <> lit "7" ++ lit "7123456789".
Proof. repeat split; vm_compute; congruence. Qed.

(** C2, amended. The result holds digits only and at most 11 of them.
    With [d] the digits of the input: no digit gives the sentinel; a
    leading 8 is rewritten to 7; ten digits that do not begin with 8 are
    prefixed with 7; in each case a string longer than 11 is cut to its
    last 11. The two spellings of the example number agree. *)
Theorem normalizePhoneNumber_spec (raw : list N) :
  let d := digits_only raw in
  forallb is_digit (normalizePhoneNumber raw) = true /\
  (length (normalizePhoneNumber raw) <= 11)%nat /\
  (d = [] -> normalizePhoneNumber raw = sentinel) /\
  (forall rest, d = 56%N :: rest ->
     normalizePhoneNumber raw = keep11 (55%N :: rest)) /\
  (forall c rest, d = c :: rest -> c <> 56%N -> length d = 10%nat ->
     normalizePhoneNumber raw = 55%N :: d) /\
  (forall c rest, d = c :: rest -> c <> 56%N -> length d <> 10%nat ->
     normalizePhoneNumber raw = keep11 d) /\
  normalizePhoneNumber (lit "8 915 123 45 67") = lit "79151234567" /\
  normalizePhoneNumber (lit "+7 (915) 123-45-67") = lit "79151234567".
Proof.
  intros d.
  assert (Hk : forall s, forallb is_digit s = true ->
                 forallb is_digit (keep11 s) = true /\ (length (keep11 s) <= 11)%nat).
  { intros s Hs. unfold keep11. destruct (Nat.ltb_spec 11 (length s)).
    - split; [by apply forallb_drop|]. rewrite length_drop. lia.
    - split; [done|lia]. }
  pose proof (digits_only_all raw) as Hd. fold d in Hd.
  rewrite normalizePhoneNumber_unfold. fold d. cbn zeta.
  repeat split.
  - destruct d as [|c rest]; [done|].
    destruct (c =? 56)%N; [|destruct (length (c :: rest) =? 10)%nat].
    + apply Hk. simpl in *. apply andb_true_iff in Hd as [_ Hd]. by rewrite Hd.
    + apply Hk. simpl in *. done.
    + by apply Hk.
  - destruct d as [|c rest]; [vm_compute; lia|].
    destruct (c =? 56)%N; [|destruct (length (c :: rest) =? 10)%nat].
    + apply Hk. simpl in *. apply andb_true_iff in Hd as [_ Hd]. by rewrite Hd.
    + apply Hk. simpl in *. done.
    + by apply Hk.
  - by intros ->.
  - by intros rest ->.
  - intros c rest -> Hc Hlen. apply N.eqb_neq in Hc. rewrite Hc.
    rewrite Hlen. unfold keep11. simpl length. simpl in Hlen. by rewrite Hlen.
  - intros c rest -> Hc Hlen. apply N.eqb_neq in Hc. rewrite Hc.
    apply Nat.eqb_neq in Hlen. by rewrite Hlen.
Qed.

(** C2, at two inputs: ten digits, and a leading 8 with thirteen digits. *)
Lemma normalizePhoneNumber_spec_witness :
  normalizePhoneNumber (lit "(915) 123-45-67") = lit "79151234567" /\
  normalizePhoneNumber (lit "8 915 123 45 67 00") = lit "15123456700".
Proof.
  pose proof (normalizePhoneNumber_spec (lit "(915) 123-45-67"))
    as (_ & _ & _ & _ & H10 & _).
  pose proof (normalizePhoneNumber_spec (lit "8 915 123 45 67 00"))
    as (_ & _ & _ & H8 & _).
  split.
  - rewrite (H10 57%N (lit "151234567")); [reflexivity|reflexivity|discriminate|reflexivity].
  - rewrite (H8 (lit "915123456700")); reflexivity.
Defined.

End PhoneFacts.


(** ** Message tag codec *)

Module CodecFacts.

Import Codec Reading JSFacts.

Example decode_bracket_tag :
  decode (lit "Sure, let us talk. [TAG:dislike] ")
  = {| text := lit "Sure, let us talk."; rating_of := Some Dislike |}.
Proof. reflexivity. Qed.

Example decode_neutral_tag :
  decode (lit "Sure[TAG:neutral]") = {| text := lit "Sure"; rating_of := None |}.
Proof. reflexivity. Qed.

Example decode_tag_not_at_end :
  decode (lit "[TAG:like] first") = {| text := lit "[TAG:like] first"; rating_of := None |}.
Proof. reflexivity. Qed.

Example decode_legacy_markers :
  decode (lit "a #disliked b #neutral")
  = {| text := lit "a b"; rating_of := Some Dislike |}.
Proof. reflexivity. Qed.

Example encode_replaces_tag :
  encode (lit "Sure[TAG:like]") (Some Dislike) = lit "Sure[TAG:dislike]".
Proof. reflexivity. Qed.

Lemma new_suffix_tag (r : option rating) : new_suffix r = tag_text (tag_of r).
Proof. by destruct r as [[]|]. Qed.

Lemma rating_of_tag_of (r : option rating) : rating_of_tag (tag_of r) = r.
Proof. by destruct r as [[]|]. Qed.

Lemma tag_text_last (t : tag) : last (tag_text t) = Some 93%N.
Proof. by destruct t. Qed.

Lemma has_bracket_tag_false (s : list N) :
  has_bracket_tag s = false <-> forall t, includes s (tag_text t) = false.
Proof.
  unfold has_bracket_tag. simpl. rewrite !orb_false_iff. split.
  - intros (H1 & H2 & H3 & _) []; done.
  - intros H. pose proof (H TagLike). pose proof (H TagDislike).
    pose proof (H TagNeutral). done.
Qed.

Lemma has_legacy_marker_false (s : list N) :
  has_legacy_marker s = false <->
  forall m, In m legacy_markers -> includes s m = false.
Proof.
  unfold has_legacy_marker, legacy_markers. simpl. rewrite !orb_false_iff.
  split.
  - intros (H1 & H2 & H3 & _) m [<-|[<-|[<-|[]]]]; done.
  - intros H. repeat split; apply H; tauto.
Qed.

(** *** The trailing-tag pattern *)

Lemma tag_match_here_Some (s : list N) (t : tag) :
  tag_match_here s = Some t -> tag_here t s = true.
Proof.
  unfold tag_match_here.
  destruct (tag_here TagLike s) eqn:E1; [by intros [= <-]|].
  destruct (tag_here TagDislike s) eqn:E2; [by intros [= <-]|].
  destruct (tag_here TagNeutral s) eqn:E3; [by intros [= <-]|done].
Qed.

Lemma tag_search_cons (c : N) (s : list N) :
  tag_match_here (c :: s) = None ->
  tag_search (c :: s) =
  match tag_search s with
  | Some (before, t) => Some (c :: before, t)
  | None => None
  end.
Proof. intros H. cbn [tag_search]. by rewrite H. Qed.

(** A match is a tag followed by white space only, up to the end. *)
Lemma tag_search_Some (s before : list N) (t : tag) :
  tag_search s = Some (before, t) ->
  exists w, s = before ++ tag_text t ++ w /\ forallb is_space w = true.
Proof.
  revert before. induction s as [|c s IH]; intros before.
  - cbn [tag_search]. destruct (tag_match_here []) eqn:M; [|done].
    intros [= <- <-]. apply tag_match_here_Some in M. by destruct t0.
  - cbn [tag_search]. destruct (tag_match_here (c :: s)) as [t0|] eqn:M.
    + intros [= <- <-]. apply tag_match_here_Some in M.
      unfold tag_here in M. apply andb_true_iff in M as [M1 M2].
      apply startsWith_spec in M1 as [r Hr]. exists r. split; [done|].
      by rewrite Hr, drop_app_length in M2.
    + destruct (tag_search s) as [[b t']|] eqn:E; [|done].
      intros [= <- <-]. destruct (IH b eq_refl) as (w & -> & Hw).
      by exists w.
Qed.

Lemma tag_search_includes (s before : list N) (t : tag) :
  tag_search s = Some (before, t) -> includes s (tag_text t) = true.
Proof.
  intros H. apply tag_search_Some in H as (w & -> & _).
  apply includes_spec. by exists before, w.
Qed.

Lemma tag_search_None (s : list N) :
  has_bracket_tag s = false -> tag_search s = None.
Proof.
  intros H. destruct (tag_search s) as [[b t]|] eqn:E; [|done].
  apply tag_search_includes in E.
  by rewrite (proj1 (has_bracket_tag_false s) H t) in E.
Qed.

(** No attempt succeeds at a position before a tag that ends the input:
    what follows the attempt would end in [']'], which is no white
    space, and no tag is a proper suffix of another. *)
Lemma tag_here_before (T t : tag) (c : N) (b : list N) :
  tag_here T ((c :: b) ++ tag_text t) = false.
Proof.
  unfold tag_here. destruct (startsWith _ _) eqn:E; [|done].
  rewrite andb_true_l.
  apply startsWith_spec in E as [r E]. rewrite E, drop_app_length.
  destruct (forallb is_space r) eqn:F; [exfalso|done].
  destruct (last r) as [x|] eqn:L.
  - pose proof (forallb_space_last r x F L) as Hx.
    apply (f_equal last) in E. rewrite !last_app, tag_text_last, L in E.
    injection E as <-. discriminate Hx.
  - apply last_None in L. subst r. rewrite app_nil_r in E.
    apply (f_equal length) in E as El. rewrite length_app in El.
    destruct t, T; simpl in El; try lia.
    + destruct b as [|? [|? [|? b]]]; simpl in El; try lia. discriminate E.
    + destruct b as [|? [|? [|? b]]]; simpl in El; try lia. discriminate E.
Qed.

Lemma tag_search_app_tag (body : list N) (t : tag) :
  tag_search (body ++ tag_text t) = Some (body, t).
Proof.
  induction body as [|c b IH].
  - by destruct t.
  - assert (M : tag_match_here ((c :: b) ++ tag_text t) = None).
    { unfold tag_match_here. by rewrite !tag_here_before. }
    change ((c :: b) ++ tag_text t) with (c :: (b ++ tag_text t)) in *.
    by rewrite (tag_search_cons _ _ M), IH.
Qed.

(** *** The legacy pattern *)

Lemma legacy_match_here_unfold (s : list N) :
  legacy_match_here s =
  if startsWith s (lit " #liked") then Some 7%nat
  else if startsWith s (lit " #disliked") then Some 10%nat
  else if startsWith s (lit " #neutral") then Some 9%nat
  else None.
Proof.
  unfold legacy_match_here, legacy_markers. cbn [List.find].
  repeat match goal with |- context [ if ?b then _ else _ ] => destruct b end;
  reflexivity.
Qed.

Lemma legacy_match_here_None (s : list N) :
  (forall m, In m legacy_markers -> startsWith s m = false) ->
  legacy_match_here s = None.
Proof.
  intros H. rewrite legacy_match_here_unfold.
  rewrite !H; [done|..]; unfold legacy_markers; simpl; tauto.
Qed.

Lemma replace_legacy_from_drop (k : nat) (s : list N) :
  replace_legacy_from k s = replace_legacy (drop k s).
Proof.
  unfold replace_legacy. revert k.
  induction s as [|c s IH]; intros [|k]; try reflexivity.
  simpl. apply IH.
Qed.

(** The scan, as the pattern with the [g] flag reads: at a match the
    matched text is dropped and the scan goes on after it; elsewhere one
    code unit is kept. *)
Lemma replace_legacy_unfold (c : N) (s : list N) :
  replace_legacy (c :: s) =
  match legacy_match_here (c :: s) with
  | Some n => replace_legacy (drop n (c :: s))
  | None => c :: replace_legacy s
  end.
Proof.
  unfold replace_legacy at 1. cbn [replace_legacy_from].
  rewrite legacy_match_here_unfold.
  repeat match goal with |- context [ if ?b then _ else _ ] => destruct b end;
  try reflexivity; rewrite replace_legacy_from_drop; reflexivity.
Qed.

Lemma replace_legacy_id (s : list N) :
  has_legacy_marker s = false -> replace_legacy s = s.
Proof.
  rewrite has_legacy_marker_false.
  induction s as [|c s IH]; intros H; [done|].
  rewrite replace_legacy_unfold, legacy_match_here_None.
  - f_equal. apply IH. intros m Hm. specialize (H m Hm). simpl in H.
    by apply orb_false_iff in H as [_ H].
  - intros m Hm. specialize (H m Hm). simpl in H.
    by apply orb_false_iff in H as [H _].
Qed.

(** *** Strings ending in a tag or in a legacy marker *)

(** The code unit [a] is none of those after the first of [p]. *)
Ltac not_in_tail :=
  let b := fresh "b" in
  let Hb := fresh "Hb" in
  intros b Hb; vm_compute in Hb; intuition (subst; discriminate).

Lemma marker_cases (m : list N) :
  In m legacy_markers ->
  m = lit " #liked" \/ m = lit " #disliked" \/ m = lit " #neutral".
Proof. unfold legacy_markers. simpl. intuition. Qed.

Lemma includes_app_tag (u m : list N) (t : tag) :
  In m legacy_markers ->
  includes u m = false -> includes (u ++ tag_text t) m = false.
Proof.
  intros Hm Hu. destruct (includes (u ++ tag_text t) m) eqn:E; [|done].
  assert (exists y', tag_text t = 91%N :: y') as [y' Hy]
    by (destruct t; eexists; reflexivity).
  apply (includes_seam u _ m 91%N y' Hy) in E.
  - destruct E as [E|E]; [congruence|].
    apply marker_cases in Hm as [->|[->| ->]]; destruct t; discriminate E.
  - apply marker_cases in Hm as [->|[->| ->]]; not_in_tail.
Qed.

Lemma has_legacy_marker_app_tag (u : list N) (t : tag) :
  has_legacy_marker u = false -> has_legacy_marker (u ++ tag_text t) = false.
Proof.
  rewrite !has_legacy_marker_false. intros H m Hm.
  apply includes_app_tag; auto.
Qed.

Lemma has_bracket_tag_app_tag (u : list N) (t : tag) :
  has_bracket_tag (u ++ tag_text t) = true.
Proof.
  unfold has_bracket_tag. apply existsb_exists. exists t. split.
  - destruct t; simpl; tauto.
  - apply includes_app_r. apply includes_spec. exists [], [].
    by rewrite app_nil_r.
Qed.

Lemma startsWith_app_marker (c : N) (p m m' : list N) :
  In m legacy_markers -> In m' legacy_markers ->
  includes (c :: p) m' = false ->
  startsWith ((c :: p) ++ m) m' = false.
Proof.
  intros Hm Hm' Hp. destruct (startsWith _ _) eqn:E; [|done].
  assert (exists y', m = 32%N :: y') as [y' Hy]
    by (apply marker_cases in Hm as [->|[->| ->]]; eexists; reflexivity).
  apply (startsWith_seam (c :: p) m m' 32%N c p y' eq_refl Hy) in E.
  - simpl in Hp. by rewrite E in Hp.
  - apply marker_cases in Hm' as [->|[->| ->]]; not_in_tail.
Qed.

(** A text without markers followed by one marker: the scan removes
    exactly that marker. *)
Lemma replace_legacy_app_marker (p m : list N) :
  has_legacy_marker p = false -> In m legacy_markers ->
  replace_legacy (p ++ m) = p.
Proof.
  rewrite has_legacy_marker_false. intros Hp Hm.
  induction p as [|c p IH].
  - apply marker_cases in Hm as [->|[->| ->]]; reflexivity.
  - change ((c :: p) ++ m) with (c :: (p ++ m)).
    rewrite replace_legacy_unfold, legacy_match_here_None.
    + f_equal. apply IH. intros m' Hm'. specialize (Hp m' Hm'). simpl in Hp.
      by apply orb_false_iff in Hp as [_ Hp].
    + intros m' Hm'. apply (startsWith_app_marker c p m m'); auto.
Qed.

Lemma includes_app_marker (p m : list N) (t : tag) :
  In m legacy_markers ->
  includes p (tag_text t) = false -> includes (p ++ m) (tag_text t) = false.
Proof.
  intros Hm Hp. destruct (includes (p ++ m) (tag_text t)) eqn:E; [|done].
  assert (exists y', m = 32%N :: y') as [y' Hy]
    by (apply marker_cases in Hm as [->|[->| ->]]; eexists; reflexivity).
  apply (includes_seam p m _ 32%N y' Hy) in E.
  - destruct E as [E|E]; [congruence|].
    apply marker_cases in Hm as [->|[->| ->]]; destruct t; discriminate E.
  - destruct t; not_in_tail.
Qed.

Lemma tag_search_app_marker (p m : list N) :
  has_bracket_tag p = false -> In m legacy_markers ->
  tag_search (p ++ m) = None.
Proof.
  intros Hp Hm. apply tag_search_None. apply has_bracket_tag_false.
  intros t. apply includes_app_marker; [done|].
  by apply has_bracket_tag_false.
Qed.

(** *** Decoding what was encoded *)

Lemma decode_app_tag (body : list N) (t : tag) :
  decode (body ++ tag_text t) =
  {| text := trimEnd body; rating_of := rating_of_tag t |}.
Proof. unfold decode. rewrite tag_search_app_tag. by destruct t. Qed.

Lemma decode_encode (s : list N) (r : option rating) :
  decode (encode s r) = {| text := clean_content s; rating_of := r |}.
Proof.
  unfold encode. rewrite new_suffix_tag, decode_app_tag, rating_of_tag_of.
  unfold clean_content. by rewrite trimEnd_idemp.
Qed.

Lemma clean_content_tag_free (s : list N) :
  tag_free s -> clean_content s = trimEnd s.
Proof.
  intros [Hb Hl]. unfold clean_content, strip_tag_end.
  by rewrite (tag_search_None s Hb), (replace_legacy_id s Hl).
Qed.

Lemma includes_trimEnd (s p : list N) :
  includes (trimEnd s) p = true -> includes s p = true.
Proof.
  intros H. destruct (trimEnd_split s) as (w & Hs & _).
  rewrite Hs. by apply includes_app_l.
Qed.

Lemma has_legacy_marker_trimEnd (s : list N) :
  has_legacy_marker s = false -> has_legacy_marker (trimEnd s) = false.
Proof.
  rewrite !has_legacy_marker_false. intros H m Hm.
  destruct (includes (trimEnd s) m) eqn:E; [|done].
  apply includes_trimEnd in E. by rewrite (H m Hm) in E.
Qed.

Lemma tag_free_trimEnd (s : list N) : tag_free s -> tag_free (trimEnd s).
Proof.
  intros [Hb Hl]. split; [|by apply has_legacy_marker_trimEnd].
  apply has_bracket_tag_false. intros t.
  destruct (includes (trimEnd s) (tag_text t)) eqn:E; [|done].
  apply includes_trimEnd in E.
  by rewrite (proj1 (has_bracket_tag_false s) Hb t) in E.
Qed.

Lemma clean_content_app_tag (u : list N) (t : tag) :
  has_legacy_marker u = false -> clean_content (u ++ tag_text t) = trimEnd u.
Proof.
  intros Hu. unfold clean_content, strip_tag_end.
  by rewrite tag_search_app_tag, (replace_legacy_id u Hu).
Qed.

(** A second rating replaces the tag of the first. *)
Lemma encode_encode (s : list N) (r1 r2 : option rating) :
  has_legacy_marker (clean_content s) = false ->
  encode (encode s r1) r2 = encode s r2.
Proof.
  intros H. unfold encode at 1 2. rewrite (new_suffix_tag r1).
  rewrite (clean_content_app_tag _ _ H). unfold clean_content at 1.
  by rewrite trimEnd_idemp.
Qed.

Lemma last_cons_default {A : Type} (x d : A) (l : list A) :
  List.last (x :: l) d = List.last l x.
Proof.
  revert x d. induction l as [|a l IH]; intros x d; [done|].
  change (List.last (x :: a :: l) d) with (List.last (a :: l) d).
  rewrite (IH a d). symmetry. apply IH.
Qed.

Lemma foldl_encode (s : list N) (r : option rating) (rs : list (option rating)) :
  has_legacy_marker (clean_content s) = false ->
  foldl encode (encode s r) rs = encode s (List.last rs r).
Proof.
  intros H. revert r. induction rs as [|r' rs IH]; intros r; [done|].
  change (foldl encode (encode s r) (r' :: rs))
    with (foldl encode (encode (encode s r) r') rs).
  by rewrite (encode_encode s r r' H), IH, last_cons_default.
Qed.

(** *** Round trip *)

(** C3, counterexample. A tag-free text that ends in a blank does not
    come back: the decoded display text has lost the blank. *)
Lemma round_trip_loses_trailing_space :
  tag_free (lit "hi ") /\
  text (decode (encode (lit "hi ") (Some Like))) = lit "hi" /\
  text (decode (encode (lit "hi ") (Some Like))) <> lit "hi ".
Proof. repeat split; vm_compute; congruence. Qed.

(** C3, amended. For a tag-free text [t] and a rating [r] (like,
    dislike, or none), the encoded form is [t] without its trailing
    white space followed by exactly one bracket tag; decoding it gives
    that trimmed text, which is [t] itself when [t] does not end in
    white space, and the rating [r], absent for none. After any further
    rating changes [rs] the stored content is again the trimmed text
    followed by the one tag of the last rating. *)
Theorem tag_round_trip (t : list N) (r : option rating)
    (rs : list (option rating)) :
  tag_free t ->
  encode t r = trimEnd t ++ new_suffix r /\
  decode (encode t r) = {| text := trimEnd t; rating_of := r |} /\
  ((forall x, last t = Some x -> is_space x = false) ->
     text (decode (encode t r)) = t) /\
  tag_free (trimEnd t) /\
  foldl encode (encode t r) rs = trimEnd t ++ new_suffix (List.last rs r) /\
  decode (foldl encode (encode t r) rs) =
    {| text := trimEnd t; rating_of := List.last rs r |}.
Proof.
  intros Ht. pose proof (clean_content_tag_free t Ht) as Hc.
  assert (Hl : has_legacy_marker (clean_content t) = false).
  { rewrite Hc. apply has_legacy_marker_trimEnd, Ht. }
  repeat split.
  - unfold encode. by rewrite Hc.
  - by rewrite decode_encode, Hc.
  - intros Hx. rewrite decode_encode. cbn [text]. rewrite Hc.
    by apply trimEnd_id.
  - apply (tag_free_trimEnd t Ht).
  - apply (tag_free_trimEnd t Ht).
  - rewrite (foldl_encode t r rs Hl). unfold encode. by rewrite Hc.
  - by rewrite (foldl_encode t r rs Hl), decode_encode, Hc.
Qed.

(** C3, at a text of two words rated dislike, then like, none, like. *)
Lemma tag_round_trip_witness :
  text (decode (encode (lit "Hello, world") (Some Dislike))) = lit "Hello, world" /\
  foldl encode (encode (lit "Hello, world") (Some Dislike)) [Some Like; None; Some Like]
  = lit "Hello, world[TAG:like]".
Proof.
  assert (Hf : tag_free (lit "Hello, world")) by (split; reflexivity).
  pose proof (tag_round_trip (lit "Hello, world") (Some Dislike)
                [Some Like; None; Some Like] Hf) as (_ & _ & H3 & _ & H5 & _).
  split.
  - apply H3. intros x Hx. vm_compute in Hx. injection Hx as <-. reflexivity.
  - rewrite H5. reflexivity.
Defined.

(** *** Content read by its shape *)

Lemma tag_text_last_index (t : tag) :
  tag_text t !! (length (tag_text t) - 1)%nat = Some 93%N.
Proof. by destruct t. Qed.

(** No attempt succeeds before a tag that is followed by white space
    only: the closing bracket of that tag would lie in what follows the
    attempt, or the attempt would reach over the opening one. *)
Lemma tag_here_before_ws (T t : tag) (c : N) (b w : list N) :
  forallb is_space w = true ->
  tag_here T ((c :: b) ++ tag_text t ++ w) = false.
Proof.
  intros Hw. unfold tag_here. destruct (startsWith _ _) eqn:E; [|done].
  rewrite andb_true_l.
  apply startsWith_spec in E as [r E]. rewrite E, drop_app_length.
  destruct (forallb is_space r) eqn:F; [exfalso|done].
  assert (Hl : ((c :: b) ++ tag_text t ++ w)
                 !! (length b + length (tag_text t))%nat = Some 93%N).
  { assert (Ht : (10 <= length (tag_text t))%nat) by (destruct t; simpl; lia).
    rewrite lookup_app_r by (cbn [length]; lia).
    replace (length b + length (tag_text t) - length (c :: b))%nat
      with (length (tag_text t) - 1)%nat by (cbn [length]; lia).
    rewrite lookup_app_l by lia.
    apply tag_text_last_index. }
  rewrite E in Hl.
  destruct (decide (length (tag_text T) <= length b + length (tag_text t))%nat)
    as [Hle|Hgt].
  - rewrite lookup_app_r in Hl by done.
    apply list_elem_of_lookup_2, list_elem_of_In in Hl.
    pose proof (proj1 (forallb_forall _ _) F _ Hl) as Hs. discriminate Hs.
  - destruct t, T; simpl in Hgt; try lia;
      destruct b as [|? [|? [|? b]]]; simpl in Hgt; try lia; discriminate E.
Qed.

Lemma tag_search_app_tag_ws (body w : list N) (t : tag) :
  forallb is_space w = true ->
  tag_search (body ++ tag_text t ++ w) = Some (body, t).
Proof.
  intros Hw. induction body as [|c b IH].
  - cbn [app].
    assert (M : tag_match_here (tag_text t ++ w) = Some t).
    { unfold tag_match_here, tag_here.
      destruct t; cbn [tag_text]; simpl; by rewrite drop_0, Hw. }
    assert (exists c rest, tag_text t ++ w = c :: rest) as (c & rest & Hc)
      by (destruct t; eexists _, _; reflexivity).
    rewrite Hc in *. cbn [tag_search]. by rewrite M.
  - assert (M : tag_match_here ((c :: b) ++ tag_text t ++ w) = None).
    { unfold tag_match_here. by rewrite !tag_here_before_ws. }
    change ((c :: b) ++ tag_text t ++ w) with (c :: (b ++ tag_text t ++ w)) in *.
    by rewrite (tag_search_cons _ _ M), IH.
Qed.

(** The pattern finds no trailing tag exactly in the contents that do
    not end in one. *)
Lemma tag_search_None_iff (s : list N) :
  tag_search s = None <-> ~ ends_in_tag s.
Proof.
  split.
  - intros Hn (b & t & w & Hw & ->). by rewrite tag_search_app_tag_ws in Hn.
  - intros Hn. destruct (tag_search s) as [[b t]|] eqn:E; [|done].
    exfalso. apply Hn. apply tag_search_Some in E as (w & -> & Hw).
    by exists b, t, w.
Qed.

Lemma body_of_strip (s body : list N) :
  body_of s body <-> strip_tag_end s = body.
Proof.
  unfold strip_tag_end. split.
  - intros [[Hn ->]|(t & w & Hw & ->)].
    + by rewrite (proj2 (tag_search_None_iff _) Hn).
    + by rewrite tag_search_app_tag_ws.
  - destruct (tag_search s) as [[b t]|] eqn:E; intros <-.
    + right. apply tag_search_Some in E as (w & -> & Hw). by exists t, w.
    + left. split; [|done]. by apply tag_search_None_iff.
Qed.

Lemma startsWith_app_marker_rest (c : N) (p m rest m' : list N) :
  In m legacy_markers -> In m' legacy_markers ->
  includes (c :: p) m' = false ->
  startsWith ((c :: p) ++ m ++ rest) m' = false.
Proof.
  intros Hm Hm' Hp. destruct (startsWith _ _) eqn:E; [|done].
  assert (exists y', m ++ rest = 32%N :: y') as [y' Hy]
    by (apply marker_cases in Hm as [->|[->| ->]]; eexists; reflexivity).
  apply (startsWith_seam (c :: p) (m ++ rest) m' 32%N c p y' eq_refl Hy) in E.
  - simpl in Hp. by rewrite E in Hp.
  - apply marker_cases in Hm' as [->|[->| ->]]; not_in_tail.
Qed.

(** At a marker that follows a text without markers the scan drops the
    marker and goes on behind it: what it has passed is not looked at
    again. *)
Lemma replace_legacy_marker_rest (p m rest : list N) :
  has_legacy_marker p = false -> In m legacy_markers ->
  replace_legacy (p ++ m ++ rest) = p ++ replace_legacy rest.
Proof.
  rewrite has_legacy_marker_false. intros Hp Hm.
  induction p as [|c p IH].
  - apply marker_cases in Hm as [->|[->| ->]]; reflexivity.
  - change ((c :: p) ++ m ++ rest) with (c :: (p ++ m ++ rest)).
    rewrite replace_legacy_unfold, legacy_match_here_None.
    + cbn [app]. f_equal. apply IH. intros m' Hm'. specialize (Hp m' Hm').
      simpl in Hp. by apply orb_false_iff in Hp as [_ Hp].
    + intros m' Hm'. apply (startsWith_app_marker_rest c p m rest m'); auto.
Qed.

Lemma replace_legacy_cut (pieces : list (list N * list N)) (rest : list N) :
  marker_cut pieces rest ->
  replace_legacy (with_markers pieces rest) = without_markers pieces rest.
Proof.
  intros [HF Hr]. induction HF as [|[p m] pieces [Hp Hm] HF IH].
  - by apply replace_legacy_id.
  - cbn [fst snd] in Hp, Hm.
    change (with_markers ((p, m) :: pieces) rest)
      with (p ++ m ++ with_markers pieces rest).
    change (without_markers ((p, m) :: pieces) rest)
      with (p ++ without_markers pieces rest).
    by rewrite (replace_legacy_marker_rest p m _ Hp Hm), IH.
Qed.

Lemma legacy_match_here_Some (s : list N) (k : nat) :
  legacy_match_here s = Some k ->
  exists m rest, In m legacy_markers /\ s = m ++ rest.
Proof.
  unfold legacy_match_here. destruct (List.find _ _) as [m|] eqn:E; [|done].
  intros _. apply List.find_some in E as [Hm E].
  apply startsWith_spec in E as [rest ->]. by exists m, rest.
Qed.

Lemma legacy_match_here_None_inv (s m : list N) :
  legacy_match_here s = None -> In m legacy_markers -> startsWith s m = false.
Proof.
  unfold legacy_match_here. destruct (List.find _ _) as [m0|] eqn:E; [done|].
  intros _ Hm. by apply (List.find_none _ _ E).
Qed.

(** Every text has a cut: the one the scan makes. *)
Lemma cut_exists (s : list N) :
  exists pieces rest, marker_cut pieces rest /\ s = with_markers pieces rest.
Proof.
  assert (H : forall (n : nat) (s : list N), (length s < n)%nat ->
            exists pieces rest,
              marker_cut pieces rest /\ s = with_markers pieces rest).
  { clear s. induction n as [|n IH]; intros s Hn; [lia|].
    destruct s as [|c s].
    { exists [], []. by repeat split. }
    destruct (legacy_match_here (c :: s)) as [k|] eqn:M.
    - apply legacy_match_here_Some in M as (m & tl & Hm & Hs).
      destruct (IH tl) as (pieces & rest & [HF Hr] & ->).
      { apply (f_equal length) in Hs. rewrite length_app in Hs.
        cbn [length] in Hn, Hs.
        assert (0 < length m)%nat
          by (apply marker_cases in Hm as [->|[->| ->]]; simpl; lia).
        lia. }
      exists (([], m) :: pieces), rest. split; [|by rewrite Hs].
      split; [|done]. constructor; [|done]. by split.
    - destruct (IH s) as (pieces & rest & [HF Hr] & Hs);
        [cbn [length] in Hn; lia|].
      destruct pieces as [|[p m] pieces].
      + exists [], (c :: rest). cbn [with_markers foldr] in Hs. subst s.
        split; [|done]. split; [constructor|].
        apply has_legacy_marker_false. intros m Hm. simpl.
        rewrite (legacy_match_here_None_inv _ m M Hm).
        by rewrite (proj1 (has_legacy_marker_false rest) Hr m Hm).
      + exists ((c :: p, m) :: pieces), rest.
        cbn [with_markers foldr fst snd] in Hs |- *. subst s.
        split; [|done]. apply Forall_cons in HF as [[Hp Hm] HF].
        cbn [fst snd] in Hp, Hm.
        split; [|done]. constructor; [|done]. split; [|done].
        cbn [fst]. apply has_legacy_marker_false. intros m' Hm'. simpl.
        rewrite (proj1 (has_legacy_marker_false p) Hp m' Hm'), orb_false_r.
        destruct (startsWith (c :: p) m') eqn:E; [|done].
        apply startsWith_spec in E as [r E].
        pose proof (legacy_match_here_None_inv _ m' M Hm') as Hno.
        assert (Hyes : startsWith ((c :: p) ++ m ++ with_markers pieces rest) m'
                       = true)
          by (rewrite E, <- app_assoc; apply startsWith_self_app).
        exact (eq_trans (eq_sym Hyes) Hno). }
  apply (H (S (length s))). lia.
Qed.

(** The cleaning of the code is the reading by shape. *)
Lemma clean_content_displays (s u : list N) :
  displays s u <-> clean_content s = u.
Proof.
  split.
  - intros (body & pieces & rest & Hb & Hc & Hbody & ->).
    apply body_of_strip in Hb. unfold clean_content.
    by rewrite Hb, Hbody, (replace_legacy_cut _ _ Hc).
  - intros <-. destruct (cut_exists (strip_tag_end s)) as (pieces & rest & Hc & Hs).
    exists (strip_tag_end s), pieces, rest.
    split; [by apply body_of_strip|]. split; [done|]. split; [done|].
    unfold clean_content. by rewrite Hs, (replace_legacy_cut _ _ Hc).
Qed.

Lemma has_legacy_marker_app_tag_eq (u : list N) (t : tag) :
  has_legacy_marker (u ++ tag_text t) = has_legacy_marker u.
Proof.
  destruct (has_legacy_marker u) eqn:E.
  - unfold has_legacy_marker in *. apply existsb_exists in E as (m & Hm & E).
    apply existsb_exists. exists m. split; [done|]. by apply includes_app_l.
  - by apply has_legacy_marker_app_tag.
Qed.

Lemma new_suffix_rating_tag (r : option rating) : new_suffix r = rating_tag r.
Proof. by destruct r as [[]|]. Qed.

(** *** Legacy markers *)

Lemma includes_suffix (p m : list N) : includes (p ++ m) m = true.
Proof. apply includes_spec. exists p, []. by rewrite app_nil_r. Qed.

(** C4, counterexample. The scan removes the marker that is there and
    thereby joins the text around it into a new one: after one encode
    cycle the stored content carries a legacy marker and a bracket tag,
    and the decoded display text still holds a marker. *)
Lemma encode_keeps_joined_marker :
  tag_search (lit " #li #likedked") = None /\
  encode (lit " #li #likedked") None = lit " #liked[TAG:neutral]" /\
  has_legacy_marker (encode (lit " #li #likedked") None) = true /\
  has_bracket_tag (encode (lit " #li #likedked") None) = true /\
  text (decode (lit " #li #likedked")) = lit " #liked".
Proof. repeat split. Qed.

(** C4, amended. A stored string that does not end in a bracket tag,
    cut at its legacy markers into pieces that hold none: the display
    text is the pieces joined, every marker of the cut left out, with
    trailing white space trimmed; every string has such a cut, the one
    a single scan from the left makes. A string that ends in
    [" #liked"] decodes to rating like, and a tag-free text followed by
    [" #liked"] to that text, trimmed. One encode cycle leaves the
    display text of the content (trailing bracket tag, then the markers
    of the cut, then trailing white space left out) followed by the
    bracket tag of the rating, which so stands at the very end; the
    result carries a legacy marker exactly when that display text does,
    and none for a tag-free text followed by one marker. (A marker that
    the scan itself joins from the pieces around a removed one stays.) *)
Theorem legacy_decode (s : list N) (r : option rating) :
  (~ ends_in_tag s ->
     (forall pieces rest, marker_cut pieces rest -> s = with_markers pieces rest ->
        text (decode s) = trimEnd (without_markers pieces rest)) /\
     ((exists p, s = p ++ lit " #liked") -> rating_of (decode s) = Some Like)) /\
  (exists pieces rest, marker_cut pieces rest /\ s = with_markers pieces rest) /\
  (forall p, tag_free p ->
     decode (p ++ lit " #liked")
     = {| text := trimEnd p; rating_of := Some Like |}) /\
  (exists u, displays s u) /\
  (forall u, displays s u ->
     encode s r = u ++ rating_tag r /\
     has_legacy_marker (encode s r) = has_legacy_marker u) /\
  (forall p m, tag_free p -> In m legacy_markers ->
     encode (p ++ m) r = trimEnd p ++ rating_tag r /\
     has_legacy_marker (encode (p ++ m) r) = false).
Proof.
  assert (Hliked : In (lit " #liked") legacy_markers) by (simpl; tauto).
  split; [|split; [|split; [|split; [|split]]]].
  - intros Hnone. apply tag_search_None_iff in Hnone. split.
    + intros pieces rest Hc ->. unfold decode. rewrite Hnone. cbn [text].
      by rewrite (replace_legacy_cut _ _ Hc).
    + intros [p ->]. unfold decode. rewrite Hnone. cbn [rating_of].
      by rewrite includes_suffix.
  - apply cut_exists.
  - intros p [Hb Hl]. unfold decode.
    rewrite (tag_search_app_marker p _ Hb Hliked).
    by rewrite (replace_legacy_app_marker p _ Hl Hliked), includes_suffix.
  - exists (clean_content s). by apply clean_content_displays.
  - intros u Hu. apply clean_content_displays in Hu.
    unfold encode. rewrite Hu, new_suffix_rating_tag. split; [done|].
    rewrite <- new_suffix_rating_tag, new_suffix_tag.
    apply has_legacy_marker_app_tag_eq.
  - intros p m [Hb Hl] Hm.
    assert (Henc : encode (p ++ m) r = trimEnd p ++ rating_tag r).
    { unfold encode, clean_content, strip_tag_end.
      by rewrite (tag_search_app_marker p m Hb Hm),
                 (replace_legacy_app_marker p m Hl Hm), new_suffix_rating_tag. }
    split; [done|]. rewrite Henc, <- new_suffix_rating_tag, new_suffix_tag.
    by apply has_legacy_marker_app_tag, has_legacy_marker_trimEnd.
Qed.

(** C4, at a stored string with two legacy markers, at strings with one, and at a string with a marker and a trailing tag. *)
Lemma legacy_decode_witness :
  decode (lit "Nice #neutral to meet you #liked")
  = {| text := lit "Nice to meet you"; rating_of := Some Like |} /\
  encode (lit "Nice #neutral to meet you #liked") (Some Dislike)
  = lit "Nice to meet you[TAG:dislike]" /\
  has_legacy_marker (encode (lit "Nice #neutral to meet you #liked") (Some Dislike))
  = false /\
  decode (lit "Nice to meet you #liked")
  = {| text := lit "Nice to meet you"; rating_of := Some Like |} /\
  encode (lit "Nice to meet you #neutral") (Some Dislike)
  = lit "Nice to meet you[TAG:dislike]" /\
  encode (lit "Nice #liked to meet you [TAG:like]  ") None
  = lit "Nice to meet you[TAG:neutral]".
Proof.
  pose proof (legacy_decode (lit "Nice #liked to meet you [TAG:like]  ") None)
    as (_ & _ & _ & _ & H7 & _).
  assert (Htagged : displays (lit "Nice #liked to meet you [TAG:like]  ")
                      (lit "Nice to meet you")).
  { exists (lit "Nice #liked to meet you "),
           [(lit "Nice", lit " #liked")], (lit " to meet you ").
    split; [right; exists TagLike, (lit "  "); by split|].
    split; [|by split]. split; [|reflexivity].
    repeat constructor; cbn [fst snd]; simpl; tauto. }
  pose proof (legacy_decode (lit "Nice #neutral to meet you #liked") (Some Dislike))
    as (H1 & _ & H3 & _ & H5 & H6).
  set (pieces := [(lit "Nice", lit " #neutral"); (lit " to meet you", lit " #liked")]).
  assert (Hcut : marker_cut pieces []).
  { split; [|reflexivity].
    repeat constructor; cbn [fst snd]; simpl; tauto. }
  assert (Hnone : ~ ends_in_tag (lit "Nice #neutral to meet you #liked"))
    by (by apply tag_search_None_iff).
  assert (Hf : tag_free (lit "Nice to meet you")) by (split; reflexivity).
  assert (Hm : In (lit " #neutral") legacy_markers) by (simpl; tauto).
  destruct (H1 Hnone) as [Htext Hrating].
  assert (Hshow : displays (lit "Nice #neutral to meet you #liked")
                    (lit "Nice to meet you")).
  { exists (lit "Nice #neutral to meet you #liked"), pieces, [].
    split; [left; by split|]. split; [exact Hcut|]. split; reflexivity. }
  destruct (H5 _ Hshow) as [Henc Hleg].
  split; [|split; [|split; [|split]]].
  - destruct (decode (lit "Nice #neutral to meet you #liked")) as [t ra] eqn:E.
    cbn [text rating_of] in Htext, Hrating.
    rewrite (Htext pieces [] Hcut eq_refl).
    rewrite (Hrating (ex_intro _ (lit "Nice #neutral to meet you") eq_refl)).
    reflexivity.
  - exact Henc.
  - rewrite Hleg. reflexivity.
  - exact (H3 (lit "Nice to meet you") Hf).
  - split.
    + exact (proj1 (H6 (lit "Nice to meet you") (lit " #neutral") Hf Hm)).
    + exact (proj1 (H7 _ Htagged)).
Defined.

End CodecFacts.

(** ** Persistence helpers *)

Module DataServiceFacts.

Import Scoring Phone Codec Reading Net DataService JSFacts CodecFacts.

(** *** saveChatMessage *)

(** C5, counterexample. The text of an assistant message is not passed
    through the codec: [saveChatMessage] appends the neutral tag to the
    text as it is. A legacy marker in the text stays, and white space at
    the end of the text ends up between text and tag. *)
Lemma saveChatMessage_appends_verbatim :
  writes (snd (run (answer_with NetworkError) tt
                 (saveChatMessage (lit "+7 (915) 123-45-67") Model (lit "ok #liked"))))
  = [PostChatHistory (lit "79151234567") Model (lit "ok #liked[TAG:neutral]")] /\
  encode (lit "ok #liked") None = lit "ok[TAG:neutral]" /\
  lit "ok #liked[TAG:neutral]" <> encode (lit "ok #liked") None /\
  writes (snd (run (answer_with NetworkError) tt
                 (saveChatMessage (lit "+7 (915) 123-45-67") Model (lit "ok "))))
  = [PostChatHistory (lit "79151234567") Model (lit "ok [TAG:neutral]")] /\
  encode (lit "ok ") None = lit "ok[TAG:neutral]".
Proof. repeat split; vm_compute; congruence. Qed.

(** C5, amended. For the assistant role the persisted content is the
    given text with ["[TAG:neutral]"] appended as it is (the function
    takes no rating: a new message is neutral), which is the codec's
    encoding when the text is tag-free and does not end in white space;
    for the user role the text is persisted as given; and when the phone
    canonicalises to the sentinel nothing is sent. *)
Theorem saveChatMessage_spec {S : Type} (srv : S -> request -> S * reply)
    (s : S) (phone : list N) (r : role) (content : list N) :
  let cleanPhone := normalizePhoneNumber phone in
  let tr := snd (run srv s (saveChatMessage phone r content)) in
  (cleanPhone = sentinel -> tr = []) /\
  (cleanPhone <> sentinel -> r = Model ->
     tr = [Sent (PostChatHistory cleanPhone Model (content ++ lit "[TAG:neutral]"))]) /\
  (cleanPhone <> sentinel -> r = User ->
     tr = [Sent (PostChatHistory cleanPhone User content)]) /\
  (tag_free content -> (forall x, last content = Some x -> is_space x = false) ->
     content ++ lit "[TAG:neutral]" = encode content None /\
     decode (content ++ lit "[TAG:neutral]")
     = {| text := content; rating_of := None |}).
Proof.
  intros cleanPhone tr. subst tr. unfold saveChatMessage. fold cleanPhone.
  split; [|split; [|split]].
  - intros Hs. by rewrite bool_decide_eq_true_2.
  - intros Hs ->. rewrite bool_decide_eq_false_2 by done. cbn [run].
    by destruct (srv s _).
  - intros Hs ->. rewrite bool_decide_eq_false_2 by done. cbn [run].
    by destruct (srv s _).
  - intros Hfree Hend. split.
    + unfold encode. rewrite (clean_content_tag_free _ Hfree).
      by rewrite (trimEnd_id _ Hend).
    + change (lit "[TAG:neutral]") with (tag_text TagNeutral).
      rewrite decode_app_tag. by rewrite (trimEnd_id _ Hend).
Qed.

(** C5, at an assistant message, a user message and an anonymous phone. *)
Lemma saveChatMessage_spec_witness :
  snd (run (answer_with (Response 201 None)) tt
         (saveChatMessage (lit "8 915 123 45 67") Model (lit "Hello")))
  = [Sent (PostChatHistory (lit "79151234567") Model (lit "Hello[TAG:neutral]"))] /\
  snd (run (answer_with (Response 201 None)) tt
         (saveChatMessage (lit "8 915 123 45 67") User (lit "Hi!")))
  = [Sent (PostChatHistory (lit "79151234567") User (lit "Hi!"))] /\
  snd (run (answer_with (Response 201 None)) tt
         (saveChatMessage (lit "n/a") Model (lit "Hello"))) = [] /\
  lit "Hello[TAG:neutral]" = encode (lit "Hello") None.
Proof.
  pose proof (saveChatMessage_spec (answer_with (Response 201 None)) tt
                (lit "8 915 123 45 67") Model (lit "Hello")) as (_ & Hm & _ & Hc).
  pose proof (saveChatMessage_spec (answer_with (Response 201 None)) tt
                (lit "8 915 123 45 67") User (lit "Hi!")) as (_ & _ & Hu & _).
  pose proof (saveChatMessage_spec (answer_with (Response 201 None)) tt
                (lit "n/a") Model (lit "Hello")) as (Hs & _).
  split; [|split; [|split]].
  - apply Hm; [vm_compute; discriminate|reflexivity].
  - apply Hu; [vm_compute; discriminate|reflexivity].
  - apply Hs. reflexivity.
  - apply Hc; [split; reflexivity|].
    intros x Hx. vm_compute in Hx. injection Hx as <-. reflexivity.
Defined.

(** *** saveResultToSpreadsheet *)

(** C10, counterexample. A conflict response whose body does not parse:
    the parsing error is swallowed and the function reports success. *)
Lemma saveResultToSpreadsheet_unparseable_conflict :
  fst (run (answer_with (Response 409 None)) tt
         (saveResultToSpreadsheet true (calculateResults ∅) Flow.demo_registration))
  = true.
Proof. reflexivity. Qed.

(** C10, amended. The function always returns a boolean. Without
    configuration it returns false and sends nothing. Otherwise it sends
    one upsert; a rejected fetch gives false; a response gives true
    exactly when it is OK or has status 409, whatever its body: a body
    that does not parse is replaced by an empty object and changes
    nothing. *)
Theorem saveResultToSpreadsheet_spec {S : Type}
    (srv : S -> request -> S * reply) (s : S) (configured : bool)
    (result : ScoringResult) (user : RegistrationData) :
  let rq := PostQuizResult (normalizePhoneNumber (phone user)) result user in
  let out := run srv s (saveResultToSpreadsheet configured result user) in
  (configured = false -> out = (false, [])) /\
  (configured = true ->
     writes (snd out) = [rq] /\
     (snd (srv s rq) = NetworkError -> fst out = false) /\
     (forall status body, snd (srv s rq) = Response status body ->
        fst out = ok status || (status =? 409))).
Proof.
  intros rq out. subst out. unfold saveResultToSpreadsheet. split.
  - by intros ->.
  - intros ->. cbn [negb run]. fold rq. destruct (srv s rq) as [s' rp].
    cbn [snd]. destruct rp as [|status body].
    + cbn [run]. by repeat split.
    + destruct (ok status) eqn:E; cbn [run]; repeat split; try done.
      * intros st b [= -> ->]. by rewrite E.
      * intros st b [= -> ->]. by rewrite E.
Qed.

(** C10, without configuration, on a conflict response and on a rejected fetch. *)
Lemma saveResultToSpreadsheet_spec_witness :
  run (answer_with (Response 409 (Some []))) tt
    (saveResultToSpreadsheet false (calculateResults ∅) Flow.demo_registration)
  = (false, []) /\
  fst (run (answer_with (Response 409 (Some []))) tt
         (saveResultToSpreadsheet true (calculateResults ∅) Flow.demo_registration))
  = true /\
  fst (run (answer_with NetworkError) tt
         (saveResultToSpreadsheet true (calculateResults ∅) Flow.demo_registration))
  = false.
Proof.
  pose proof (saveResultToSpreadsheet_spec (answer_with (Response 409 (Some [])))
                tt false (calculateResults ∅) Flow.demo_registration) as [H1 _].
  pose proof (saveResultToSpreadsheet_spec (answer_with (Response 409 (Some [])))
                tt true (calculateResults ∅) Flow.demo_registration) as [_ H2].
  pose proof (saveResultToSpreadsheet_spec (answer_with NetworkError)
                tt true (calculateResults ∅) Flow.demo_registration) as [_ H3].
  split; [|split].
  - apply H1. reflexivity.
  - destruct (H2 eq_refl) as (_ & _ & H). rewrite (H 409 (Some []) eq_refl).
    reflexivity.
  - destruct (H3 eq_refl) as (_ & H & _). apply H. reflexivity.
Defined.

(** *** rateMessage *)


Lemma truthy_id_nonzero (i : N) : i <> 0%N -> truthy_id (Some i) = Some i.
Proof. by destruct i. Qed.


Lemma run_rate_write_Some {S : Type} (srv : S -> request -> S * reply) (s : S)
    (i : N) (content : list N) (rating : option rating) :
  i <> 0%N ->
  writes (snd (run srv s (rate_write (Some i) content rating)))
  = [PatchContent i (encode content rating)].
Proof.
  intros Hi. unfold rate_write. rewrite (truthy_id_nonzero i Hi). cbn [run].
  destruct (srv s _) as [s' [|status body]]; reflexivity.
Qed.





End DataServiceFacts.

(** ** Quiz flow controller *)

Module FlowFacts.

Import Scoring Phone Net DataService Flow.

Section Quiz.

Variable QUESTIONS : list Z.
Variable configured : bool.

Abbreviation N_questions := (QUESTIONS_length QUESTIONS).

Lemma question_id_Some (i qid : Z) :
  question_id QUESTIONS i = Some qid -> 0 <= i < N_questions.
Proof.
  unfold question_id, QUESTIONS_length.
  destruct (Z.ltb_spec i 0) as [Hneg|Hpos]; [done|].
  intros Hq. apply lookup_lt_Some in Hq. lia.
Qed.

(** *** Calls and clicks under a guard *)





(** *** One accepted selection, then a burst *)







(** *** The commit *)

Lemma resume_save_keeps (m : io bool) (st : flow) :
  result (resume_save m st) = result st /\
  localStorage (resume_save m st) = localStorage st /\
  answers (resume_save m st) = answers st.
Proof.
  revert st. induction m as [saved|rq k _|msg k IH]; intros st; cbn [resume_save].
  - destruct saved, st; done.
  - by destruct st.
  - destruct (IH (log (Console msg) st)) as (-> & -> & ->). by destruct st.
Qed.

Lemma finishQuiz_begin_fields (ua : gmap Z Z) (reg : RegistrationData) (st : flow) :
  let r := calculateResults ua in
  let st1 := finishQuiz_begin ua reg st in
  result st1 = Some r /\
  localStorage st1 =
    <[KEY_USER_PHONE := StoredText (normalizePhoneNumber (phone reg))]>
      (<[STORAGE_KEY_USER := StoredUser reg]>
         (<[STORAGE_KEY_RESULT := StoredResult r]> (localStorage st))) /\
  effects st1 =
    effects st ++
    [SetResult r; LocalSet STORAGE_KEY_RESULT (StoredResult r);
     LocalSet STORAGE_KEY_USER (StoredUser reg);
     LocalSet KEY_USER_PHONE (StoredText (normalizePhoneNumber (phone reg)))] /\
  pending st1 = pending st /\ isSending st1 = true /\ authError st1 = AuthNone.
Proof.
  destruct st. cbn -[insert calculateResults normalizePhoneNumber].
  repeat split. by rewrite <- !app_assoc.
Qed.

(** C9. [finishQuiz] computes the result with [calculateResults], puts
    it in the local state and writes result, registration and canonical
    phone to [localStorage], and only then sends the upsert (none is
    sent without configuration, which counts as a failed save). When the
    reply is in, a failed save sets the error message and leaves result
    and [localStorage] as committed; a successful one sets no error. *)
Theorem finishQuiz_commits_locally (finalAnswers : gmap Z Z)
    (reg : RegistrationData) (st : flow) (rp : reply) :
  let r := calculateResults finalAnswers in
  let cleanPhone := normalizePhoneNumber (phone reg) in
  let rq := PostQuizResult cleanPhone r reg in
  let local := [SetResult r; LocalSet STORAGE_KEY_RESULT (StoredResult r);
                LocalSet STORAGE_KEY_USER (StoredUser reg);
                LocalSet KEY_USER_PHONE (StoredText cleanPhone)] in
  let committed := fun s : flow =>
    result s = Some r /\
    localStorage s !! STORAGE_KEY_RESULT = Some (StoredResult r) /\
    localStorage s !! STORAGE_KEY_USER = Some (StoredUser reg) in
  let st1 := finishQuiz configured finalAnswers reg st in
  let st2 := step QUESTIONS configured (Deliver (length (pending st)) rp) st1 in
  committed st1 /\
  (configured = true ->
     effects st1 = effects st ++ local ++ [Send rq] /\
     (exists k, pending st1 = pending st ++ [Awaiting rq k]) /\
     committed st2 /\
     isSending st2 = false /\
     authError st2 = if save_succeeds rp then AuthNone else AuthSaveFailed) /\
  (configured = false ->
     effects st1 = effects st ++ local /\
     isSending st1 = false /\
     authError st1 = AuthSaveFailed).
Proof.
  intros r cleanPhone rq local committed st1 st2.
  destruct (finishQuiz_begin_fields finalAnswers reg st)
    as (Hres & Hls & Heff & Hpend & Hsend & Herr).
  fold r cleanPhone in Hres, Hls, Heff.
  assert (Hc0 : committed (finishQuiz_begin finalAnswers reg st)).
  { subst committed. cbn beta. rewrite Hres, Hls. split; [done|].
    split; by simplify_map_eq. }
  assert (Hc1 : committed st1).
  { subst st1. unfold finishQuiz.
    destruct (resume_save_keeps
                (saveResultToSpreadsheet configured (calculateResults finalAnswers) reg)
                (finishQuiz_begin finalAnswers reg st)) as (Hr & Hl & _).
    subst committed. cbn beta. rewrite Hr, Hl. exact Hc0. }
  split; [exact Hc1|]. split.
  - intros ->. subst st1 st2. unfold finishQuiz, saveResultToSpreadsheet.
    cbn [negb resume_save]. fold r cleanPhone rq.
    set (k := fun rp0 : reply => _).
    set (st0 := finishQuiz_begin finalAnswers reg st) in *.
    assert (Hp1 : pending (set_pending (pending st0 ++ [Awaiting rq k])
                             (log (Send rq) st0))
                  = pending st ++ [Awaiting rq k]).
    { rewrite <- Hpend. by destruct st0. }
    split; [|split; [by exists k|]].
    { transitivity (effects st0 ++ [Send rq]); [by destruct st0|].
      rewrite Heff. by rewrite <- app_assoc. }
    cbn [step]. rewrite Hp1, list_lookup_middle by done.
    set (st' := set_pending _ _).
    assert (Hc' : committed st').
    { subst st' committed. cbn beta. destruct Hc0 as (? & ? & ?).
      by destruct st0. }
    assert (Hae : authError st' = AuthNone).
    { subst st'. rewrite <- Herr. by destruct st0. }
    destruct (resume_save_keeps (k rp) st') as (Hr & Hl & _).
    split; [subst committed; cbn beta; by rewrite Hr, Hl|].
    clearbody st'. subst k. cbn beta.
    destruct rp as [|status body]; cbn [save_succeeds].
    + cbn [resume_save]. by destruct st'.
    + destruct (ok status) eqn:Hok; cbn [resume_save orb].
      * by destruct st'.
      * destruct (status =? 409); by destruct st'.
  - intros ->. subst st1. unfold finishQuiz, saveResultToSpreadsheet.
    cbn [negb resume_save].
    set (st0 := finishQuiz_begin finalAnswers reg st) in *.
    split; [|by destruct st0].
    subst local. rewrite <- Heff. by destruct st0.
Qed.


(** C8, amended. On the last question with its answer recorded, a call
    of [handleNextStep] either returns at its own entry test or is the
    call of [handleOptionSelect] with the recorded answer; it is that
    call whenever [isSending] is clear, and then a click on the forward
    arrow and a click on the recorded scale button do the same. (With
    [isSending] set and no other guard, the arrow does nothing while the
    selection still commits.) *)
Theorem next_on_last_is_select (st : flow) (qid a : Z) :
  currentStep st = N_questions - 1 ->
  question_id QUESTIONS (currentStep st) = Some qid ->
  answers st !! qid = Some a ->
  (handleNextStep QUESTIONS st = Some st \/
   handleNextStep QUESTIONS st = handleOptionSelect QUESTIONS a st) /\
  (isSending st = false ->
   handleNextStep QUESTIONS st = handleOptionSelect QUESTIONS a st /\
   step QUESTIONS configured ClickNext st
   = step QUESTIONS configured (ClickOption a) st).
Proof.
  intros Hlast Hq Ha.
  assert (Hcall : isAnimating st || isSending st || isShattering st = false ->
                  handleNextStep QUESTIONS st = handleOptionSelect QUESTIONS a st).
  { intros Hg. unfold handleNextStep. rewrite Hg, Hq, Ha.
    destruct (Z.ltb_spec (currentStep st) (N_questions - 1)); [lia|done]. }
  split.
  - destruct (isAnimating st || isSending st || isShattering st) eqn:Hg.
    + left. unfold handleNextStep. by rewrite Hg.
    + right. by apply Hcall.
  - intros Hs.
    assert (Heq : handleNextStep QUESTIONS st = handleOptionSelect QUESTIONS a st).
    { destruct (isAnimating st || isSending st || isShattering st) eqn:Hg.
      - unfold handleNextStep, handleOptionSelect. rewrite Hg.
        rewrite Hs, orb_false_r in Hg.
        destruct (isAnimating st), (isPulsing st), (isShattering st); done.
      - by apply Hcall. }
    split; [done|]. cbn [step]. rewrite Heq.
    unfold next_disabled, option_disabled, currentAnswer, displayStep.
    rewrite Hlast, Z.min_id. rewrite <- Hlast, Hq. cbn [mbind option_bind].
    by rewrite Ha, Hs.
Qed.

End Quiz.

(** Three questions answered with 3 each, every timer in turn and the
    save accepted: the session ends in the result view, once, with the
    guards clear and the result of the three answers. *)
Example three_questions_run :
  let evs := [OptionSelect 3; Elapse 0; Elapse 0;
              OptionSelect 3; Elapse 0; Elapse 0;
              OptionSelect 3; Elapse 0; Elapse 0;
              Deliver 0 (Response 201 (Some [])); Elapse 0] in
  let st := run [1; 2; 3] true evs (demo_flow 0 false false ∅) in
  view st = Result /\ isShattering st = false /\ guarded st = false /\
  pending st = [] /\
  result st = Some (calculateResults {[ 1 := 3; 2 := 3; 3 := 3 ]}) /\
  authError st = AuthNone.
Proof. cbv zeta. repeat split; reflexivity. Qed.



(** C8, counterexample. On the last question with its answer recorded
    and [isSending] set, the forward arrow does nothing and the
    selection starts the commit. *)
Lemma next_blocked_while_sending :
  let st := demo_flow 2 false true {[ 3 := 4 ]} in
  currentStep st = QUESTIONS_length [1; 2; 3] - 1 /\
  answers st !! 3 = Some 4 /\
  handleNextStep [1; 2; 3] st = Some st /\
  handleOptionSelect [1; 2; 3] 4 st <> handleNextStep [1; 2; 3] st /\
  step [1; 2; 3] true ClickNext st = st /\
  isPulsing (step [1; 2; 3] true (ClickOption 4) st) = true.
Proof.
  cbv zeta. repeat split; try reflexivity.
  intros H. apply (f_equal (fmap isPulsing)) in H. discriminate H.
Qed.

(** C8, on the last of three questions. *)
Lemma next_on_last_is_select_witness :
  let st := demo_flow 2 false false {[ 3 := 4 ]} in
  handleNextStep [1; 2; 3] st = handleOptionSelect [1; 2; 3] 4 st /\
  step [1; 2; 3] true ClickNext st = step [1; 2; 3] true (ClickOption 4) st.
Proof.
  intros st.
  destruct (next_on_last_is_select [1; 2; 3] true st 3 4 eq_refl eq_refl eq_refl)
    as [_ H].
  exact (H eq_refl).
Defined.

(** C9, with a store that answers 500. *)
Lemma finishQuiz_commits_locally_witness :
  let st1 := finishQuiz true ∅ demo_registration (demo_flow 3 false false ∅) in
  let st2 := step [1; 2; 3] true (Deliver 0 (Response 500 None)) st1 in
  result st1 = Some (mkResult 24 24 24 24 (lit "ISFJ")) /\
  result st2 = Some (mkResult 24 24 24 24 (lit "ISFJ")) /\
  authError st2 = AuthSaveFailed.
Proof.
  intros st1 st2.
  destruct (finishQuiz_commits_locally [1; 2; 3] true ∅ demo_registration
              (demo_flow 3 false false ∅) (Response 500 None))
    as ((H1 & _) & H2 & _).
  destruct (H2 eq_refl) as (_ & _ & (H3 & _) & _ & H4).
  split; [exact H1|]. split; [exact H3|exact H4].
Defined.

End FlowFacts.

(* ================================================================== *)
(** * Part III: further properties of the code                         *)
(* ================================================================== *)

(** ** Scoring engine *)

Module ScoringMore.

Import Scoring.

Lemma getVal_range (answers : gmap Z Z) (id : Z) :
  (forall n v, answers !! n = Some v -> 1 <= v <= 5) ->
  1 <= getVal answers id <= 5.
Proof.
  intros H. unfold getVal. destruct (answers !! id) as [v|] eqn:E; [|lia].
  by apply (H id).
Qed.

Lemma axes_in_range (answers : gmap Z Z) :
  (forall n v, answers !! n = Some v -> 1 <= v <= 5) ->
  let r := calculateResults answers in
  8 <= EI r <= 40 /\ 8 <= SN r <= 40 /\ 8 <= FT r <= 40 /\ 8 <= JP r <= 40.
Proof.
  intros H r. subst r. unfold calculateResults. cbn [EI SN FT JP].
  pose proof (getVal_range answers) as G.
  repeat match goal with
  | |- context [ getVal answers ?k ] =>
      let x := fresh "a" in
      pose proof (G k H); set (x := getVal answers k) in *; clearbody x
  end.
  lia.
Qed.

(** With every recorded magnitude between 1 and 5, each of the four
    axis values lies between 8 and 40, the threshold 24 in the middle. *)
Theorem calculateResults_bounds (answers : gmap Z Z) :
  (forall n v, answers !! n = Some v -> 1 <= v <= 5) ->
  let r := calculateResults answers in
  8 <= EI r <= 40 /\ 8 <= SN r <= 40 /\ 8 <= FT r <= 40 /\ 8 <= JP r <= 40.
Proof. apply axes_in_range. Qed.

(** At an answer set within the scale. *)
Lemma calculateResults_bounds_witness :
  8 <= EI (calculateResults {[ 3 := 5; 7 := 5; 15 := 1 ]}) <= 40.
Proof.
  assert (H : forall n v, ({[ 3 := 5; 7 := 5; 15 := 1 ]} : gmap Z Z) !! n = Some v
                          -> 1 <= v <= 5).
  { intros n v Hn.
    destruct (decide (n = 3)) as [->|]; [vm_compute in Hn; injection Hn; lia|].
    destruct (decide (n = 7)) as [->|]; [vm_compute in Hn; injection Hn; lia|].
    destruct (decide (n = 15)) as [->|]; [vm_compute in Hn; injection Hn; lia|].
    by simplify_map_eq. }
  exact (proj1 (calculateResults_bounds _ H)).
Defined.

Lemma getVal_mirror (answers : gmap Z Z) (id : Z) :
  getVal ((fun v => 6 - v) <$> answers) id = 6 - getVal answers id.
Proof. unfold getVal. rewrite lookup_fmap. by destruct (answers !! id). Qed.

(** Answering every item the other way round (magnitude [6 - v] for
    [v]; an absent item stays neutral) reflects each axis value at the
    threshold: the new value is 48 minus the old one. *)
Theorem calculateResults_mirror (answers : gmap Z Z) :
  let r := calculateResults answers in
  let r' := calculateResults ((fun v => 6 - v) <$> answers) in
  EI r' = 48 - EI r /\ SN r' = 48 - SN r /\
  FT r' = 48 - FT r /\ JP r' = 48 - JP r.
Proof.
  intros r r'. subst r r'. unfold calculateResults. cbn [EI SN FT JP].
  rewrite !getVal_mirror. lia.
Qed.

Lemma getVal_insert (answers : gmap Z Z) (n v id : Z) :
  getVal (<[n := v]> answers) id
  = if decide (n = id) then v else getVal answers id.
Proof.
  unfold getVal. rewrite lookup_insert. by destruct (decide (n = id)).
Qed.

(** Recording the magnitude [v] for the item [n] moves exactly one axis
    value, by the full difference to the magnitude that counted before,
    when [n] is one of the items 1 to 32, and moves nothing otherwise. *)
Theorem calculateResults_insert (answers : gmap Z Z) (n v : Z) :
  let r := calculateResults answers in
  let r' := calculateResults (<[n := v]> answers) in
  let d := v - getVal answers n in
  let dEI := EI r' - EI r in
  let dSN := SN r' - SN r in
  let dFT := FT r' - FT r in
  let dJP := JP r' - JP r in
  (1 <= n <= 32 ->
     Z.abs dEI + Z.abs dSN + Z.abs dFT + Z.abs dJP = Z.abs d /\
     ((dSN = 0 /\ dFT = 0 /\ dJP = 0) \/ (dEI = 0 /\ dFT = 0 /\ dJP = 0) \/
      (dEI = 0 /\ dSN = 0 /\ dJP = 0) \/ (dEI = 0 /\ dSN = 0 /\ dFT = 0))) /\
  (~ 1 <= n <= 32 -> dEI = 0 /\ dSN = 0 /\ dFT = 0 /\ dJP = 0).
Proof.
  intros r r' d dEI dSN dFT dJP.
  subst dEI dSN dFT dJP d r r'. unfold calculateResults. cbn [EI SN FT JP].
  rewrite !getVal_insert.
  repeat match goal with
  | |- context [ decide (n = ?k) ] =>
      destruct (decide (n = k)) as [->|?];
      [repeat (rewrite decide_False by discriminate); split; intros; lia|]
  end.
  split; intros; lia.
Qed.

(** At the third item, and at a key that is no item. *)
Lemma calculateResults_insert_witness :
  SN (calculateResults (<[3 := 5]> ∅)) - SN (calculateResults ∅) = 0 /\
  EI (calculateResults (<[40 := 5]> ∅)) - EI (calculateResults ∅) = 0.
Proof.
  destruct (calculateResults_insert ∅ 3 5) as [H1 _].
  destruct (calculateResults_insert ∅ 40 5) as [_ H2].
  assert (R1 : 1 <= 3 <= 32) by lia.
  assert (R2 : ~ 1 <= 40 <= 32) by lia.
  destruct (H1 R1) as [_ [(E1 & _)|[(_ & E1 & _)|[(_ & E1 & _)|(_ & E1 & _)]]]];
    destruct (H2 R2) as (E2 & _); (split; [|exact E2]);
    first [exact E1 | reflexivity].
Defined.

End ScoringMore.

(** ** Phone: canonical form and the input field *)

Module PhoneMore.

Import Phone Form PhoneFacts.

Lemma digits_only_id (s : list N) :
  forallb is_digit s = true -> digits_only s = s.
Proof.
  unfold digits_only. induction s as [|c s IH]; [done|]. simpl.
  intros H. apply andb_true_iff in H as [Hc Hs]. by rewrite Hc, IH.
Qed.

Lemma keep11_short (s : list N) : (length s <= 11)%nat -> keep11 s = s.
Proof. intros H. unfold keep11. by destruct (Nat.ltb_spec 11 (length s)); [lia|]. Qed.

Lemma keep11_shape (s : list N) :
  forallb is_digit s = true -> s <> [] ->
  forallb is_digit (keep11 s) = true /\
  (1 <= length (keep11 s) <= 11)%nat.
Proof.
  intros Hs Hne. unfold keep11. destruct (Nat.ltb_spec 11 (length s)).
  - split; [by apply forallb_drop|]. rewrite length_drop. lia.
  - split; [done|]. destruct s; [done|]. simpl in *. lia.
Qed.

(** The canonical form holds digits only, at least one and at most 11. *)
Lemma normalizePhoneNumber_shape (raw : list N) :
  forallb is_digit (normalizePhoneNumber raw) = true /\
  (1 <= length (normalizePhoneNumber raw) <= 11)%nat.
Proof.
  rewrite normalizePhoneNumber_unfold. cbn zeta.
  pose proof (digits_only_all raw) as Hd.
  destruct (digits_only raw) as [|c rest];
    [split; [reflexivity|unfold sentinel; simpl; lia]|].
  simpl in Hd. apply andb_true_iff in Hd as [Hc Hrest].
  destruct (c =? 56)%N; [|destruct (length (c :: rest) =? 10)%nat];
    apply keep11_shape; simpl; rewrite ?Hc, ?Hrest; done.
Qed.

(** Canonicalising a canonical form again changes it exactly when it
    begins with 8 or has ten digits; every other canonical form is a
    fixed point. *)
Theorem normalizePhoneNumber_again (raw : list N) :
  let o := normalizePhoneNumber raw in
  normalizePhoneNumber o = o <-> (head o <> Some 56%N /\ length o <> 10%nat).
Proof.
  intros o. destruct (normalizePhoneNumber_shape raw) as [Hd [Hlo Hhi]].
  fold o in Hd, Hlo, Hhi. rewrite (normalizePhoneNumber_unfold o).
  rewrite (digits_only_id o Hd). cbn zeta.
  destruct o as [|c rest]; [simpl in Hlo; lia|].
  destruct (N.eqb_spec c 56) as [->|Hc].
  - rewrite keep11_short by (simpl in *; lia). split.
    + intros [=].
    + intros [H _]. by destruct H.
  - destruct (Nat.eqb_spec (length (c :: rest)) 10) as [Hl|Hl].
    + rewrite keep11_short by (simpl in *; lia). split.
      * intros H. apply (f_equal length) in H. simpl in H. lia.
      * intros [_ H]. by destruct H.
    + rewrite keep11_short by lia. split; [|done]. intros _. split; [|done].
      simpl. congruence.
Qed.

(** *** The input field *)

Lemma forallb_take {A : Type} (f : A -> bool) (n : nat) (l : list A) :
  forallb f l = true -> forallb f (take n l) = true.
Proof.
  revert n. induction l as [|x l IH]; intros [|n] H; simpl in *; try done.
  apply andb_true_iff in H as [Hx H]. by rewrite Hx, IH.
Qed.

(** The digits kept from a non-empty run of digits: an 8, then the run
    without its first digit when that is 7 or 8 and the whole run
    otherwise, cut after 11. *)
Lemma phone_clean_spec (c : N) (t : list N) :
  phone_clean (c :: t)
  = take 11 (56%N :: (if (c =? 55)%N || (c =? 56)%N then t else c :: t)).
Proof.
  unfold phone_clean, substring. cbn [first_is drop].
  assert (Hcut : forall s : list N, (if (11 <? length s)%nat
                            then take (11 - 0) (drop 0 s) else s) = take 11 s).
  { intros s. destruct (Nat.ltb_spec 11 (length s)); [done|].
    by rewrite take_ge. }
  destruct (N.eqb_spec c 55) as [->|H7].
  - cbn [orb]. change (first_is 56 (lit "8" ++ t)) with true. cbn [negb].
    apply Hcut.
  - cbn [first_is orb]. destruct (c =? 56)%N eqn:H8; cbn [negb].
    + apply N.eqb_eq in H8 as ->. apply Hcut.
    + apply Hcut.
Qed.

Lemma phone_clean_shape (c : N) (t : list N) :
  forallb is_digit (c :: t) = true ->
  forallb is_digit (phone_clean (c :: t)) = true /\
  head (phone_clean (c :: t)) = Some 56%N /\
  (1 <= length (phone_clean (c :: t)) <= 11)%nat.
Proof.
  intros Hd. rewrite phone_clean_spec. split; [|split].
  - apply forallb_take. simpl in Hd. apply andb_true_iff in Hd as [Hc Ht].
    destruct ((c =? 55)%N || (c =? 56)%N); simpl; by rewrite ?Hc, ?Ht.
  - reflexivity.
  - rewrite length_take. cbn [length]. lia.
Qed.

(** Grouping adds blanks only: the digits of the grouped text are the
    digits that were grouped. *)
Lemma digits_only_phone_group (clean : list N) :
  forallb is_digit clean = true -> (length clean <= 11)%nat ->
  digits_only (phone_group clean) = clean.
Proof.
  intros Hd Hl.
  do 12 (destruct clean as [|? clean]; [
    cbn -[is_digit] in Hd;
    repeat match type of Hd with
    | (_ && _) = true => let H := fresh "Hx" in apply andb_true_iff in Hd as [H Hd]
    end;
    unfold phone_group, substring, digits_only; cbn -[is_digit];
    repeat match goal with
    | H : is_digit ?x = true |- _ => rewrite H; clear H
    end; reflexivity |]).
  simpl in Hl. lia.
Qed.

Lemma phone_clean_fixed (clean : list N) :
  head clean = Some 56%N -> (length clean <= 11)%nat ->
  phone_clean clean = clean.
Proof.
  intros Hh Hl. destruct clean as [|c t]; [done|]. injection Hh as ->.
  rewrite phone_clean_spec.
  change ((56 =? 55)%N || (56 =? 56)%N) with true. cbn match.
  apply take_ge. simpl in *. lia.
Qed.

(** The phone field after any input: empty when the input has no digit;
    otherwise its digits begin with 8 and are at most 11, namely an 8
    followed by the typed digits (without a leading 7 or 8), cut after
    11. Feeding the field its own value gives the same value. *)
Theorem handlePhoneChange_digits (raw : list N) :
  let ph := handlePhoneChange raw in
  (digits_only raw = [] -> ph = []) /\
  (forall c t, digits_only raw = c :: t ->
     digits_only ph
     = take 11 (56%N :: (if (c =? 55)%N || (c =? 56)%N then t else c :: t))) /\
  handlePhoneChange ph = ph.
Proof.
  intros ph. subst ph. unfold handlePhoneChange.
  pose proof (digits_only_all raw) as Hd.
  destruct (digits_only raw) as [|c t] eqn:E.
  - split; [done|]. split; [by intros ? ? [=]|done].
  - destruct (phone_clean_shape c t Hd) as (Hc & Hh & Hlo & Hhi).
    pose proof (digits_only_phone_group _ Hc Hhi) as Hg.
    split; [by intros [=]|]. split.
    + intros c' t' [= <- <-]. by rewrite Hg, phone_clean_spec.
    + rewrite Hg. destruct (phone_clean (c :: t)) as [|c' t'] eqn:E'.
      * simpl in Hlo. lia.
      * by rewrite (phone_clean_fixed _ Hh Hhi).
Qed.

(** At a number typed with a leading 7 and punctuation. *)
Lemma handlePhoneChange_digits_witness :
  digits_only (handlePhoneChange (lit "+7 (915) 123-45-67"))
  = lit "89151234567".
Proof.
  destruct (handlePhoneChange_digits (lit "+7 (915) 123-45-67")) as (_ & H & _).
  exact (H 55%N (lit "9151234567") eq_refl).
Defined.

(** A phone that went through the input field and holds a digit never
    canonicalises to the anonymous sentinel: its canonical form is a 7
    followed by the digits after the leading 8. That form is a fixed
    point of the canonicaliser unless it has exactly ten digits, so for
    a complete number the key stored under ['user_phone'] and the key
    derived from it again by the chat functions are the same. *)
Theorem handlePhoneChange_canonical (raw : list N) :
  let ph := handlePhoneChange raw in
  let d := digits_only ph in
  digits_only raw <> [] ->
  normalizePhoneNumber ph = 55%N :: drop 1 d /\
  normalizePhoneNumber ph <> sentinel /\
  length (normalizePhoneNumber ph) = length d /\
  (normalizePhoneNumber (normalizePhoneNumber ph) = normalizePhoneNumber ph
   <-> length d <> 10%nat).
Proof.
  intros ph d Hne. subst d ph. unfold handlePhoneChange.
  pose proof (digits_only_all raw) as Hd.
  destruct (digits_only raw) as [|c t] eqn:E; [done|].
  destruct (phone_clean_shape c t Hd) as (Hc & Hh & Hlo & Hhi).
  pose proof (digits_only_phone_group _ Hc Hhi) as Hg. rewrite Hg.
  assert (Hn : normalizePhoneNumber (phone_group (phone_clean (c :: t)))
               = 55%N :: drop 1 (phone_clean (c :: t))).
  { rewrite normalizePhoneNumber_unfold, Hg. cbn zeta.
    destruct (phone_clean (c :: t)) as [|c' t']; [done|].
    injection Hh as ->. change (56 =? 56)%N with true. cbn match.
    change (drop 1 (56%N :: t')) with t'.
    apply keep11_short. simpl in *. lia. }
  assert (Hlen : length (55%N :: drop 1 (phone_clean (c :: t)))
                 = length (phone_clean (c :: t))).
  { destruct (phone_clean (c :: t)); [simpl in Hlo; lia|done]. }
  split; [done|]. split; [by rewrite Hn|]. split; [by rewrite Hn|].
  pose proof (normalizePhoneNumber_again (phone_group (phone_clean (c :: t))))
    as Hfix. cbn zeta in Hfix. rewrite Hfix, Hn, Hlen. cbn [head].
  split; [by intros [_ H]|]. intros H. by split.
Qed.

(** At a complete number and at one of ten digits. *)
Lemma handlePhoneChange_canonical_witness :
  normalizePhoneNumber (handlePhoneChange (lit "9151234567")) = lit "79151234567" /\
  normalizePhoneNumber (handlePhoneChange (lit "915123456")) <> sentinel.
Proof.
  assert (H1 : digits_only (lit "9151234567") <> []) by (vm_compute; discriminate).
  assert (H2 : digits_only (lit "915123456") <> []) by (vm_compute; discriminate).
  destruct (handlePhoneChange_canonical (lit "9151234567") H1) as (E & _).
  destruct (handlePhoneChange_canonical (lit "915123456") H2) as (_ & N2 & _).
  split; [rewrite E; reflexivity|exact N2].
Defined.

End PhoneMore.

(** ** Interests *)

Module FormMore.

Import Form JSFacts.

Lemma trimStart_head (s : list N) (c : N) :
  head (trimStart s) = Some c -> is_space c = false.
Proof.
  induction s as [|x s IH]; [done|]. simpl.
  destruct (is_space x) eqn:E; [done|]. by intros [= <-].
Qed.

Lemma trimStart_id (s : list N) :
  (forall c, head s = Some c -> is_space c = false) -> trimStart s = s.
Proof. destruct s as [|x s]; [done|]. intros H. simpl. by rewrite (H x). Qed.

Lemma trimEnd_head (s : list N) (c : N) :
  (forall x, head s = Some x -> is_space x = false) ->
  head (trimEnd s) = Some c -> is_space c = false.
Proof.
  destruct s as [|x s]; [done|]. intros H. simpl.
  rewrite (H x eq_refl). destruct (trimEnd s); intros [= <-]; by apply H.
Qed.

Lemma trim_idemp (s : list N) : trim (trim s) = trim s.
Proof.
  unfold trim. rewrite (trimStart_id (trimEnd (trimStart s))).
  - apply trimEnd_idemp.
  - intros c. apply trimEnd_head. intros x. apply trimStart_head.
Qed.

Lemma elem_of_trimStart (x : N) (s : list N) : x ∈ trimStart s -> x ∈ s.
Proof.
  induction s as [|c s IH]; [done|]. simpl.
  destruct (is_space c); [|done]. intros H. right. by apply IH.
Qed.

Lemma elem_of_trimEnd (x : N) (s : list N) : x ∈ trimEnd s -> x ∈ s.
Proof.
  intros H. destruct (trimEnd_split s) as (w & Hs & _). rewrite Hs.
  apply elem_of_app. by left.
Qed.

Lemma before_slash_free (s : list N) : 47%N ∉ before_slash s.
Proof.
  induction s as [|c s IH]; simpl; [by apply not_elem_of_nil|].
  destruct (N.eqb_spec c 47); [by apply not_elem_of_nil|].
  apply not_elem_of_cons. by split.
Qed.

Lemma before_slash_id (s : list N) : 47%N ∉ s -> before_slash s = s.
Proof.
  induction s as [|c s IH]; [done|]. intros H.
  apply not_elem_of_cons in H as [Hc Hs]. simpl.
  destruct (N.eqb_spec c 47); [congruence|]. by rewrite IH.
Qed.

(** The label of an interest holds no slash and neither begins nor ends
    with white space, and it is its own label: the button of a label
    selects that label. *)
Theorem cleanLabel_clean (it : list N) :
  (47%N ∉ cleanLabel it) /\
  (forall c, head (cleanLabel it) = Some c -> is_space c = false) /\
  (forall c, last (cleanLabel it) = Some c -> is_space c = false) /\
  cleanLabel (cleanLabel it) = cleanLabel it.
Proof.
  assert (Hfree : 47%N ∉ cleanLabel it).
  { unfold cleanLabel, trim. intros H.
    apply elem_of_trimEnd, elem_of_trimStart in H.
    by apply (before_slash_free it). }
  split; [done|]. split; [|split].
  - intros c. unfold cleanLabel, trim. apply trimEnd_head.
    intros x. apply trimStart_head.
  - intros c. unfold cleanLabel, trim. apply trimEnd_last.
  - unfold cleanLabel at 1. rewrite (before_slash_id _ Hfree).
    unfold cleanLabel. apply trim_idemp.
Qed.

(** At a label with a comment after a slash. *)
Lemma cleanLabel_clean_witness :
  cleanLabel (lit "  Music / guitar ") = lit "Music" /\
  is_space 77 = false.
Proof.
  destruct (cleanLabel_clean (lit "  Music / guitar ")) as (_ & Hh & _).
  split; [reflexivity|]. exact (Hh 77%N eq_refl).
Defined.

Lemma filter_other_id (label : list N) (current : list (list N)) :
  label ∉ current ->
  List.filter (fun x => negb (bool_decide (x = label))) current = current.
Proof.
  induction current as [|y current IH]; [done|]. intros H.
  apply not_elem_of_cons in H as [Hy Hc]. simpl.
  rewrite bool_decide_eq_false_2 by congruence. simpl. by rewrite IH.
Qed.

Lemma elem_of_filter_other (x label : list N) (current : list (list N)) :
  x ∈ List.filter (fun y => negb (bool_decide (y = label))) current
  <-> x ∈ current /\ x <> label.
Proof.
  rewrite !list_elem_of_In, filter_In. split; intros [H1 H2]; split; try done.
  - apply negb_true_iff, bool_decide_eq_false in H2. done.
  - apply negb_true_iff, bool_decide_eq_false. done.
Qed.

(** A click on an interest flips the membership of its label and of no
    other entry, keeps the list free of duplicates, and a second click
    on an interest that was not selected gives the list back. *)
Theorem clickInterest_toggle (it : list N) (current : list (list N)) :
  let label := cleanLabel it in
  let clicked := clickInterest it current in
  (label ∈ clicked <-> label ∉ current) /\
  (forall x, x <> label -> (x ∈ clicked <-> x ∈ current)) /\
  (NoDup current -> NoDup clicked) /\
  (label ∉ current -> clickInterest it clicked = current).
Proof.
  intros label clicked. subst clicked. unfold clickInterest. fold label.
  destruct (bool_decide (label ∈ current)) eqn:E.
  - apply bool_decide_eq_true in E. split; [|split; [|split]].
    + rewrite elem_of_filter_other. split; [by intros [_ H]|done].
    + intros x Hx. rewrite elem_of_filter_other. split; [by intros [H _]|done].
    + intros H. apply NoDup_ListNoDup, List.NoDup_filter.
      by apply NoDup_ListNoDup.
    + done.
  - apply bool_decide_eq_false in E. split; [|split; [|split]].
    + split; [done|]. intros _. apply elem_of_app. right. by left.
    + intros x Hx. rewrite elem_of_app, list_elem_of_singleton.
      split; [by intros [H|H]|by left].
    + intros H. apply NoDup_app. split; [done|]. split.
      * intros x Hx Hx'. apply list_elem_of_singleton in Hx'. by subst.
      * apply NoDup_singleton.
    + intros _. rewrite bool_decide_eq_true_2
        by (apply elem_of_app; right; by left).
      rewrite List.filter_app. rewrite (filter_other_id label current E).
      simpl. rewrite bool_decide_eq_true_2 by done. simpl. apply app_nil_r.
Qed.

(** Selecting and deselecting an interest. *)
Lemma clickInterest_toggle_witness :
  clickInterest (lit "Music / guitar")
    (clickInterest (lit "Music / guitar") [lit "Art"]) = [lit "Art"].
Proof.
  destruct (clickInterest_toggle (lit "Music / guitar") [lit "Art"])
    as (_ & _ & _ & H).
  apply H. vm_compute. intros Hin. apply list_elem_of_singleton in Hin.
  discriminate Hin.
Defined.

(** Entering an interest never removes or duplicates an entry: blank
    input changes nothing; otherwise the label of the entered text is
    in the list afterwards, once, and entering the same text again
    changes nothing more. *)
Theorem enterInterest_adds (interestInput : list N) (current : list (list N)) :
  let entered := enterInterest interestInput current in
  (forall x, x ∈ current -> x ∈ entered) /\
  (trim interestInput = [] -> entered = current) /\
  (trim interestInput <> [] -> cleanLabel (trim interestInput) ∈ entered) /\
  (NoDup current -> NoDup entered) /\
  enterInterest interestInput entered = entered.
Proof.
  intros entered. subst entered. unfold enterInterest.
  destruct (trim interestInput) as [|c t] eqn:E; [done|].
  set (label := cleanLabel (c :: t)).
  destruct (bool_decide (label ∈ current)) eqn:Hin.
  - apply bool_decide_eq_true in Hin. rewrite bool_decide_eq_true_2 by done.
    by repeat split.
  - apply bool_decide_eq_false in Hin.
    assert (Hl : label ∈ current ++ [label])
      by (apply elem_of_app; right; by left).
    rewrite bool_decide_eq_true_2 by done.
    split; [|split; [|split; [|split]]]; try done.
    + intros x Hx. apply elem_of_app. by left.
    + intros H. apply NoDup_app. split; [done|]. split.
      * intros x Hx Hx'. apply list_elem_of_singleton in Hx'. by subst.
      * apply NoDup_singleton.
Qed.

(** At a text entered twice. *)
Lemma enterInterest_adds_witness :
  enterInterest (lit " Chess ") (enterInterest (lit " Chess ") [lit "Art"])
  = [lit "Art"; lit "Chess"].
Proof.
  destruct (enterInterest_adds (lit " Chess ") [lit "Art"]) as (_ & _ & _ & _ & H).
  rewrite H. reflexivity.
Defined.

End FormMore.

(** ** Chat persistence *)

Module ChatMore.

Import Phone Codec Net DataService Form Chat JSFacts CodecFacts DataServiceFacts.

Lemma decode_tag_free (content : list N) :
  tag_free content ->
  decode content = {| text := trimEnd content; rating_of := None |}.
Proof.
  intros [Hb Hl]. unfold decode. rewrite (tag_search_None content Hb).
  rewrite (replace_legacy_id content Hl).
  pose proof (proj1 (has_legacy_marker_false content) Hl) as Hm.
  rewrite (Hm (lit " #liked")), (Hm (lit " #disliked")); [done|..];
    unfold legacy_markers; simpl; tauto.
Qed.

(** What [saveChatMessage] stores reads back through the decoding of
    [getChatHistory]: one row at most is written, under the canonical
    phone and the given role; an assistant text, whatever it holds,
    comes back as the same text with trailing white space trimmed and no
    rating; a user text does so when it is tag-free. *)
Theorem saveChatMessage_reloads {S : Type} (srv : S -> request -> S * reply)
    (s : S) (phone : list N) (r : role) (content : list N) :
  let cleanPhone := normalizePhoneNumber phone in
  exists stored,
    writes (snd (run srv s (saveChatMessage phone r content)))
    = (if bool_decide (cleanPhone = sentinel) then []
       else [PostChatHistory cleanPhone r stored]) /\
    (r = Model ->
       decode stored = {| text := trimEnd content; rating_of := None |}) /\
    (r = User -> tag_free content ->
       decode stored = {| text := trimEnd content; rating_of := None |}).
Proof.
  intros cleanPhone. unfold saveChatMessage. fold cleanPhone.
  exists (match r with Model => content ++ lit "[TAG:neutral]" | User => content end).
  split; [|split].
  - destruct (bool_decide (cleanPhone = sentinel)); [done|].
    cbn [run]. by destruct (srv s _).
  - intros ->. change (lit "[TAG:neutral]") with (tag_text TagNeutral).
    apply decode_app_tag.
  - intros -> Hfree. by apply decode_tag_free.
Qed.

(** At an assistant text that itself ends in a tag and a blank. *)
Lemma saveChatMessage_reloads_witness :
  decode (lit "see [TAG:like] " ++ lit "[TAG:neutral]")
  = {| text := lit "see [TAG:like]"; rating_of := None |} /\
  decode (lit "thanks") = {| text := lit "thanks"; rating_of := None |}.
Proof.
  destruct (saveChatMessage_reloads (answer_with NetworkError) tt
              (lit "89151234567") Model (lit "see [TAG:like] "))
    as (st1 & Hw1 & Hm & _).
  destruct (saveChatMessage_reloads (answer_with NetworkError) tt
              (lit "89151234567") User (lit "thanks"))
    as (st2 & Hw2 & _ & Hu).
  injection Hw1 as <-. injection Hw2 as <-.
  split; [exact (Hm eq_refl)|].
  apply (Hu eq_refl). split; reflexivity.
Defined.

(** What a further rating change does to the text: the tag of the
    change before is the trailing one, so it alone is stripped, and the
    legacy pass and the trim run once more over the cleaned text. *)
Lemma clean_content_encode (s : list N) (r : option rating) :
  clean_content (encode s r) = trimEnd (replace_legacy (clean_content s)).
Proof.
  unfold encode. rewrite new_suffix_tag. unfold clean_content at 1, strip_tag_end.
  by rewrite tag_search_app_tag.
Qed.

Lemma foldl_encode_iter (rs : list (option rating)) :
  forall (s : list N) (r : option rating),
    foldl encode s (rs ++ [r])
    = Nat.iter (length rs) (fun u => trimEnd (replace_legacy u)) (clean_content s)
      ++ new_suffix r.
Proof.
  induction rs as [|r1 rs IH]; intros s r; [done|].
  change (foldl encode s ((r1 :: rs) ++ [r]))
    with (foldl encode (encode s r1) (rs ++ [r])).
  rewrite IH, clean_content_encode. cbn [length]. by rewrite Nat.iter_succ_r.
Qed.

Lemma trimEnd_iter_clean (n : nat) (s : list N) :
  trimEnd (Nat.iter n (fun u => trimEnd (replace_legacy u)) (clean_content s))
  = Nat.iter n (fun u => trimEnd (replace_legacy u)) (clean_content s).
Proof.
  destruct n as [|n]; cbn [Nat.iter nat_rect]; [|apply trimEnd_idemp].
  unfold clean_content. apply trimEnd_idemp.
Qed.

Lemma iter_clean_id (n : nat) (s : list N) :
  has_legacy_marker (clean_content s) = false ->
  Nat.iter n (fun u => trimEnd (replace_legacy u)) (clean_content s)
  = clean_content s.
Proof.
  intros H. induction n as [|n IH]; [done|].
  cbn [Nat.iter nat_rect]. fold (Nat.iter n (fun u => trimEnd (replace_legacy u))
                                   (clean_content s)).
  rewrite IH, (replace_legacy_id _ H). unfold clean_content. apply trimEnd_idemp.
Qed.

Lemma decoded_eq (d : decoded) (t : list N) (r : option rating) :
  text d = t -> rating_of d = r -> d = {| text := t; rating_of := r |}.
Proof. destruct d. cbn. by intros -> ->. Qed.

(** Re-encoding any stored content, tagged, legacy or plain, with a
    rating makes it decode to that rating, with a display text that does
    not depend on the rating. After any number of rating changes the
    content decodes to the last rating; its display text depends on the
    stored content and on the number of changes only, not on the
    ratings: every change runs the legacy pass and the trim once more
    over the cleaned text, and when the cleaned text holds no legacy
    marker the display text is the same after every change. No decoded
    display text ends in white space. *)
Theorem rating_survives (stored : list N) (r : option rating)
    (rs : list (option rating)) :
  rating_of (decode (encode stored r)) = r /\
  text (decode (encode stored r)) = clean_content stored /\
  rating_of (decode (foldl encode stored (rs ++ [r]))) = r /\
  text (decode (foldl encode stored (rs ++ [r])))
  = Nat.iter (length rs) (fun u => trimEnd (replace_legacy u))
      (clean_content stored) /\
  (has_legacy_marker (clean_content stored) = false ->
   text (decode (foldl encode stored (rs ++ [r]))) = clean_content stored) /\
  (forall c, last (text (decode stored)) = Some c -> is_space c = false).
Proof.
  assert (Hd : decode (foldl encode stored (rs ++ [r]))
               = {| text := Nat.iter (length rs)
                              (fun u => trimEnd (replace_legacy u))
                              (clean_content stored);
                    rating_of := r |}).
  { by rewrite foldl_encode_iter, new_suffix_tag, decode_app_tag,
               rating_of_tag_of, trimEnd_iter_clean. }
  split; [by rewrite decode_encode|]. split; [by rewrite decode_encode|].
  split; [by rewrite Hd|]. split; [by rewrite Hd|]. split.
  - intros H. rewrite Hd. cbn [text]. by apply iter_clean_id.
  - intros c. unfold decode. destruct (tag_search stored) as [[b t]|];
      cbn [text]; apply trimEnd_last.
Qed.

(** At a stored content whose legacy pass joins a new marker: the text
    after one change and after two; and at a content in the legacy form
    with a stray tag, where the text stays. *)
Lemma rating_survives_witness :
  decode (encode (lit "ok #li #likedked") (Some Like))
  = {| text := lit "ok #liked"; rating_of := Some Like |} /\
  decode (foldl encode (lit "ok #li #likedked") [Some Like; Some Dislike])
  = {| text := lit "ok"; rating_of := Some Dislike |} /\
  decode (foldl encode (lit "ok[TAG:like] #liked  ") [Some Like; None; Some Dislike])
  = {| text := lit "ok[TAG:like]"; rating_of := Some Dislike |}.
Proof.
  destruct (rating_survives (lit "ok #li #likedked") (Some Like) [])
    as (H1 & H2 & _).
  destruct (rating_survives (lit "ok #li #likedked") (Some Dislike) [Some Like])
    as (_ & _ & H3 & H4 & _).
  destruct (rating_survives (lit "ok[TAG:like] #liked  ") (Some Dislike)
              [Some Like; None])
    as (_ & _ & H5 & _ & H6 & _).
  specialize (H6 eq_refl).
  split; [|split].
  - apply decoded_eq; [exact H2|exact H1].
  - apply decoded_eq; [exact H4|exact H3].
  - apply decoded_eq; [exact H6|exact H5].
Defined.

(** *** rateMessage *)

Lemma truthy_id_Some (i : option N) (j : N) :
  truthy_id i = Some j -> i = Some j /\ j <> 0%N.
Proof. destruct i as [[|p]|]; [done| |done]. by intros [= <-]. Qed.

Lemma rate_write_writes {S : Type} (srv : S -> request -> S * reply) (s : S)
    (recordId : option N) (content : list N) (rating : option rating) :
  writes (snd (run srv s (rate_write recordId content rating)))
  = match truthy_id recordId with
    | Some i => [PatchContent i (encode content rating)]
    | None => []
    end.
Proof.
  destruct (truthy_id recordId) as [i|] eqn:E.
  - apply truthy_id_Some in E as [-> Hi]. by apply run_rate_write_Some.
  - unfold rate_write. by rewrite E.
Qed.

(** With a known identifier (and a phone that is not the sentinel)
    [rateMessage] first reads the stored content of that row. It then
    patches that row with the stored content re-encoded; when the row
    cannot be read (a response that is not OK, or no row), it patches
    with the text in memory re-encoded instead; when the read is
    rejected or its body does not parse, it logs and writes nothing. *)
Theorem rateMessage_known_id {S : Type} (srv : S -> request -> S * reply)
    (s : S) (phone : list N) (message : ChatMessageData)
    (rating : option rating) (recordId : N) :
  truthy_id (msg_id message) = Some recordId ->
  normalizePhoneNumber phone <> sentinel ->
  let lookup := GetContentById recordId in
  let rp := snd (srv s lookup) in
  let tr := snd (run srv s (rateMessage phone message rating)) in
  let patch := fun content => [PatchContent recordId (encode content rating)] in
  (exists rest, tr = Sent lookup :: rest) /\
  match rp with
  | NetworkError => tr = [Sent lookup; Logged "Error rating message:"]
  | Response status body =>
      if ok status then
        match body with
        | None => tr = [Sent lookup; Logged "Error rating message:"]
        | Some (r0 :: _) => writes tr = patch (row_content r0)
        | Some [] => writes tr = patch (msg_text message)
        end
      else writes tr = patch (msg_text message)
  end.
Proof.
  intros Hid Hs lookup rp tr patch. subst tr rp patch. unfold rateMessage.
  rewrite bool_decide_eq_false_2 by done. rewrite Hid. fold lookup.
  cbn [run]. destruct (srv s lookup) as [s' rp]. cbn [snd].
  destruct (truthy_id_Some _ _ Hid) as [_ Hnz].
  split; [destruct (run srv s' _) as [a tr]; by exists tr|].
  assert (Hw : forall content,
             writes (snd (run srv s' (rate_write (Some recordId) content rating)))
             = [PatchContent recordId (encode content rating)]).
  { intros content. by apply run_rate_write_Some. }
  destruct rp as [|status [[|r0 records]|]]; [done|..];
    destruct (ok status); try done;
    match goal with
    | |- context [ run srv ?s0 (rate_write _ ?c _) ] =>
        pose proof (Hw c) as Hc; destruct (run srv s0 _) as [a tr];
        cbn [snd] in *; exact Hc
    end.
Qed.

(** At a message with identifier 9 whose row holds a legacy marker, and
    at a read that fails with status 500. *)
Lemma rateMessage_known_id_witness :
  let message := mkMessage (Some 9%N) Model (lit "Hello") None in
  writes (snd (run (answer_with (Response 200 (Some [mkRow 9 (lit "Hello #liked")])))
                 tt (rateMessage (lit "89151234567") message (Some Dislike))))
  = [PatchContent 9 (lit "Hello[TAG:dislike]")] /\
  writes (snd (run (answer_with (Response 500 None))
                 tt (rateMessage (lit "89151234567") message None)))
  = [PatchContent 9 (lit "Hello[TAG:neutral]")].
Proof.
  intros message.
  assert (Hp : normalizePhoneNumber (lit "89151234567") <> sentinel)
    by (vm_compute; discriminate).
  destruct (rateMessage_known_id
              (answer_with (Response 200 (Some [mkRow 9 (lit "Hello #liked")])))
              tt (lit "89151234567") message (Some Dislike) 9%N eq_refl Hp)
    as [_ H1].
  destruct (rateMessage_known_id (answer_with (Response 500 None))
              tt (lit "89151234567") message None 9%N eq_refl Hp)
    as [_ H2].
  split; [exact H1|exact H2].
Defined.

Lemma run_fetch_trace {S A : Type} (srv : S -> request -> S * reply) (s : S)
    (rq : request) (k : reply -> io A) :
  snd (run srv s (Fetch rq k))
  = Sent rq :: snd (run srv (fst (srv s rq)) (k (snd (srv s rq)))).
Proof.
  cbn [run]. destruct (srv s rq) as [s' rp]. cbn [fst snd].
  by destruct (run srv s' (k rp)).
Qed.

(** What one call of [rateMessage] can write. *)
Lemma rateMessage_writes_shape {S : Type} (srv : S -> request -> S * reply)
    (s : S) (phone : list N) (message : ChatMessageData)
    (rating : option rating) :
  let ws := writes (snd (run srv s (rateMessage phone message rating))) in
  ws = [] \/
  exists i content,
    ws = [PatchContent i (encode content rating)] /\ i <> 0%N /\
    (forall j, truthy_id (msg_id message) = Some j -> i = j).
Proof.
  cbn zeta. unfold rateMessage.
  destruct (bool_decide (normalizePhoneNumber phone = sentinel)); [by left|].
  assert (Hrw : forall (s0 : S) oid content,
             (forall j, truthy_id (msg_id message) = Some j -> oid = Some j) ->
             writes (snd (run srv s0 (rate_write oid content rating))) = [] \/
             exists i c,
               writes (snd (run srv s0 (rate_write oid content rating)))
               = [PatchContent i (encode c rating)] /\ i <> 0%N /\
               (forall j, truthy_id (msg_id message) = Some j -> i = j)).
  { intros s0 oid content Hoid. rewrite rate_write_writes.
    destruct (truthy_id oid) as [i|] eqn:E; [|by left]. right.
    apply truthy_id_Some in E as [-> Hi]. exists i, content.
    split; [done|]. split; [done|]. intros j Hj.
    specialize (Hoid j Hj). congruence. }
  destruct (truthy_id (msg_id message)) as [recordId|] eqn:Hid;
    rewrite run_fetch_trace;
    change (writes (Sent ?q :: ?tr)) with (writes tr);
    destruct (srv s _) as [s' rp]; cbn [fst snd];
    destruct rp as [|status body]; try (by left);
    destruct (ok status); try (destruct body as [records|]); try (by left).
  - destruct records as [|r0 records]; apply Hrw; by intros j [= <-].
  - apply Hrw. by intros j [= <-].
  - apply Hrw. by intros j [= <-].
  - destruct (List.find (same_text message) records); apply Hrw; by intros j [=].
Qed.

(** Whatever the store answers, one call of [rateMessage] writes at most
    once, and only by patching the content of one row: the row of the
    message when its identifier is known. The patched content decodes
    to the rating that was asked for. For the sentinel phone nothing is
    sent at all. *)
Theorem rateMessage_one_write {S : Type} (srv : S -> request -> S * reply)
    (s : S) (phone : list N) (message : ChatMessageData)
    (rating : option rating) :
  let tr := snd (run srv s (rateMessage phone message rating)) in
  (normalizePhoneNumber phone = sentinel -> tr = []) /\
  (writes tr = [] \/
   exists i stored,
     writes tr = [PatchContent i stored] /\ i <> 0%N /\
     (forall j, truthy_id (msg_id message) = Some j -> i = j) /\
     rating_of (decode stored) = rating).
Proof.
  intros tr. subst tr. split.
  - intros Hs. unfold rateMessage. by rewrite bool_decide_eq_true_2.
  - destruct (rateMessage_writes_shape srv s phone message rating)
      as [H|(i & content & H & Hi & Hj)]; [by left|right].
    exists i, (encode content rating). repeat split; try done.
    by rewrite decode_encode.
Qed.

(** At the sentinel phone. *)
Lemma rateMessage_one_write_witness :
  snd (run (answer_with (Response 200 (Some [mkRow 9 (lit "Hello")]))) tt
         (rateMessage (lit "no digits") (mkMessage (Some 9%N) Model (lit "Hello") None)
            (Some Like))) = [].
Proof.
  destruct (rateMessage_one_write
              (answer_with (Response 200 (Some [mkRow 9 (lit "Hello")]))) tt
              (lit "no digits") (mkMessage (Some 9%N) Model (lit "Hello") None)
              (Some Like)) as [H _].
  apply H. reflexivity.
Defined.

(** *** handleRateMessage *)



(** *** The end of an exchange *)

Lemma trimEnd_trim (s : list N) : trimEnd (trim s) = trim s.
Proof. unfold trim. apply trimEnd_idemp. Qed.

(** The two saves that end an exchange, for a phone that is not the
    sentinel: first the text of the user as given, then the cleaned
    reply with the neutral tag. The stored reply decodes to exactly the
    cleaned reply that the chat shows when the stream has ended, with
    no rating, whatever the stream produced. *)
Theorem save_exchange_reloads {S : Type} (srv : S -> request -> S * reply)
    (s : S) (storedPhone text fullText : list N) :
  let cleanPhone := normalizePhoneNumber storedPhone in
  let shown := cleanFullText fullText in
  let tr := snd (run srv s (save_exchange storedPhone text fullText)) in
  (cleanPhone = sentinel -> tr = []) /\
  (cleanPhone <> sentinel ->
     tr = [Sent (PostChatHistory cleanPhone User text);
           Sent (PostChatHistory cleanPhone Model (shown ++ lit "[TAG:neutral]"))]) /\
  decode (shown ++ lit "[TAG:neutral]") = {| text := shown; rating_of := None |}.
Proof.
  intros cleanPhone shown tr. subst tr.
  unfold save_exchange, saveChatMessage. fold cleanPhone shown.
  split; [|split].
  - intros Hs. by rewrite !bool_decide_eq_true_2.
  - intros Hs. rewrite !bool_decide_eq_false_2 by done. cbn [io_bind run].
    destruct (srv s _) as [s1 rp1]. by destruct (srv s1 _).
  - change (lit "[TAG:neutral]") with (tag_text TagNeutral).
    rewrite decode_app_tag. subst shown. unfold cleanFullText.
    by rewrite trimEnd_trim.
Qed.

(** At a reply streamed with a tag of the model and blanks around it. *)
Lemma save_exchange_reloads_witness :
  snd (run (answer_with (Response 201 None)) tt
         (save_exchange (lit "79151234567") (lit "Hi")
            (lit " Hello[TAG:like] there ")))
  = [Sent (PostChatHistory (lit "79151234567") User (lit "Hi"));
     Sent (PostChatHistory (lit "79151234567") Model
             (lit "Hello there[TAG:neutral]"))].
Proof.
  destruct (save_exchange_reloads (answer_with (Response 201 None)) tt
              (lit "79151234567") (lit "Hi") (lit " Hello[TAG:like] there "))
    as (_ & H & _).
  apply H. vm_compute. discriminate.
Defined.

End ChatMore.

(** ** Runs of the quiz *)

Module SessionMore.

Import Scoring Phone Net DataService Flow Session FlowFacts.

Section Quiz.

Variable QUESTIONS : list Z.
Variable configured : bool.

Abbreviation N_questions := (QUESTIONS_length QUESTIONS).
Abbreviation sound := (Session.sound QUESTIONS).
Abbreviation on_scale := (Session.on_scale QUESTIONS).

(** *** Answers stay on the scale *)

Lemma on_scale_insert (m : gmap Z Z) (qid v : Z) :
  on_scale m -> qid ∈ QUESTIONS -> 1 <= v <= 5 -> on_scale (<[qid := v]> m).
Proof.
  intros Hm Hq Hv k w. rewrite lookup_insert.
  destruct (decide (qid = k)) as [<-|]; [by intros [= <-]|apply Hm].
Qed.

Lemma question_id_elem (i qid : Z) :
  question_id QUESTIONS i = Some qid -> qid ∈ QUESTIONS.
Proof.
  unfold question_id. destruct (i <? 0); [done|].
  intros H. by apply list_elem_of_lookup_2 in H.
Qed.

Lemma Forall_snoc_item (l : list pending_item) (item : pending_item) :
  Forall (item_on_scale QUESTIONS) l -> item_on_scale QUESTIONS item ->
  Forall (item_on_scale QUESTIONS) (l ++ [item]).
Proof. intros Hl Hi. apply Forall_app. split; [done|]. by constructor. Qed.

Lemma sound_resume_save (m : io bool) (st : flow) :
  sound st -> sound (resume_save m st).
Proof.
  revert st. induction m as [saved|rq k _|msg k IH]; intros st (Ha & Hp & Hr);
    cbn [resume_save].
  - destruct saved, st; cbn in *; (split; [|split]); try done;
      by apply Forall_snoc_item.
  - destruct st; cbn in *; (split; [|split]); try done.
    by apply Forall_snoc_item.
  - apply IH. by destruct st.
Qed.

Lemma sound_handleOptionSelect (v : Z) (st st' : flow) :
  sound st -> 1 <= v <= 5 ->
  handleOptionSelect QUESTIONS v st = Some st' -> sound st'.
Proof.
  intros (Ha & Hp & Hr) Hv. unfold handleOptionSelect.
  destruct (_ || _); [by intros [= <-]|].
  destruct (question_id QUESTIONS (currentStep st)) as [qid|] eqn:Hq; [|done].
  intros [= <-]. apply question_id_elem in Hq.
  pose proof (on_scale_insert _ qid v Ha Hq Hv) as Hins.
  destruct st; cbn in *; (split; [|split]); try done.
  by apply Forall_snoc_item.
Qed.

Lemma sound_handleNextStep (st st' : flow) :
  sound st -> handleNextStep QUESTIONS st = Some st' -> sound st'.
Proof.
  intros Hs. unfold handleNextStep.
  destruct (_ || _); [by intros [= <-]|].
  destruct (question_id QUESTIONS (currentStep st)) as [qid|] eqn:Hq; [|done].
  destruct (answers st !! qid) as [a|] eqn:Ha; [|by intros [= <-]].
  destruct (currentStep st <? N_questions - 1).
  - intros [= <-]. destruct Hs as (Hans & Hp & Hr).
    destruct st; cbn in *; (split; [|split]); try done.
    by apply Forall_snoc_item.
  - apply sound_handleOptionSelect; [done|].
    destruct Hs as (Hans & _). by apply (Hans qid a).
Qed.

Lemma sound_handlePrevStep (st st' : flow) :
  sound st -> handlePrevStep st = Some st' -> sound st'.
Proof.
  intros (Hans & Hp & Hr). unfold handlePrevStep.
  destruct (_ || _); [by intros [= <-]|]. intros [= <-].
  destruct st; cbn in *; (split; [|split]); try done.
  by apply Forall_snoc_item.
Qed.

Lemma sound_settle (o : option flow) (st : flow) :
  sound st -> (forall st', o = Some st' -> sound st') -> sound (settle o st).
Proof. intros Hs Ho. destruct o as [st'|]; [by apply Ho|done]. Qed.

Lemma sound_fire (ms : nat) (cb : callback) (st : flow) :
  sound st -> item_on_scale QUESTIONS (Timeout ms cb) ->
  sound (fire QUESTIONS configured cb st).
Proof.
  intros (Ha & Hp & Hr) Hcb. destruct cb as [i m reg|m reg| |d]; cbn [fire].
  - destruct (i >=? N_questions - 1); destruct st; cbn in *;
      (split; [|split]); try done; by apply Forall_snoc_item.
  - unfold finishQuiz. apply sound_resume_save.
    destruct st; cbn in *; (split; [|split]); try done. by exists m.
  - destruct st; cbn in *; by (split; [|split]).
  - destruct st; cbn in *; by (split; [|split]).
Qed.

Lemma sound_drop_pending (n : nat) (st : flow) :
  sound st -> sound (set_pending (delete n (pending st)) st).
Proof.
  intros (Ha & Hp & Hr). destruct st; cbn in *; (split; [|split]); try done.
  by apply Forall_delete.
Qed.

Lemma sound_step (e : event) (st : flow) :
  sound st -> scale_input e = true -> sound (step QUESTIONS configured e st).
Proof.
  intros Hs He. destruct e as [v| | |v| | |n|n rp]; cbn [step].
  - apply sound_settle; [done|]. intros st'.
    apply sound_handleOptionSelect; [done|]. cbn in He. lia.
  - apply sound_settle; [done|]. intros st'. by apply sound_handleNextStep.
  - apply sound_settle; [done|]. intros st'. by apply sound_handlePrevStep.
  - destruct (_ && _); [|done]. apply sound_settle; [done|]. intros st'.
    apply sound_handleOptionSelect; [done|]. cbn in He. lia.
  - destruct (_ && _); [|done]. apply sound_settle; [done|]. intros st'.
    by apply sound_handleNextStep.
  - destruct (_ && _); [|done]. apply sound_settle; [done|]. intros st'.
    by apply sound_handlePrevStep.
  - destruct (pending st !! n) as [[ms cb|rq k]|] eqn:E; try done.
    apply (sound_fire ms); [by apply sound_drop_pending|].
    destruct Hs as (_ & Hp & _).
    by apply (proj1 (Forall_lookup _ _) Hp n).
  - destruct (pending st !! n) as [[ms cb|rq k]|] eqn:E; try done.
    apply sound_resume_save. by apply sound_drop_pending.
Qed.

(** Through any run of handler calls, clicks, timers and replies, in
    any order, whose selections carry magnitudes of the scale: the
    answers stay answers to questions of the quiz with magnitudes from
    1 to 5, and every result the session holds was computed from such
    answers, so that each of its four axis values lies between 8
    and 40. *)
Theorem run_on_scale (evs : list event) (st : flow) :
  Session.sound QUESTIONS st -> forallb scale_input evs = true ->
  let st' := run QUESTIONS configured evs st in
  Session.sound QUESTIONS st' /\
  (forall k v, answers st' !! k = Some v -> k ∈ QUESTIONS /\ 1 <= v <= 5) /\
  (forall r, result st' = Some r ->
     8 <= EI r <= 40 /\ 8 <= SN r <= 40 /\ 8 <= FT r <= 40 /\ 8 <= JP r <= 40).
Proof.
  intros Hs Hevs st'. subst st'.
  assert (H : sound (run QUESTIONS configured evs st)).
  { revert st Hs. unfold run.
    induction evs as [|e evs IH]; intros st Hs; [done|].
    cbn [forallb] in Hevs. apply andb_true_iff in Hevs as [He Hevs].
    cbn [foldl]. apply IH; [done|]. by apply sound_step. }
  split; [done|]. split; [apply H|].
  intros r Hr. destruct H as (_ & _ & Hres). rewrite Hr in Hres.
  destruct Hres as (m & Hm & ->).
  apply ScoringMore.axes_in_range. intros n v Hn.
  by apply (Hm n v).
Qed.

(** *** The result view has a result *)

Lemma handleOptionSelect_shape (v : Z) (st st' : flow) :
  handleOptionSelect QUESTIONS v st = Some st' -> handler_shape st st'.
Proof.
  unfold handleOptionSelect. destruct (_ || _); [intros [= <-]; by left|].
  destruct (question_id QUESTIONS (currentStep st)) as [qid|]; [|done].
  intros [= <-]. right. destruct st; cbn. split; [done|]. split; [done|].
  by eexists _, _.
Qed.

Lemma handleNextStep_shape (st st' : flow) :
  handleNextStep QUESTIONS st = Some st' -> handler_shape st st'.
Proof.
  unfold handleNextStep. destruct (_ || _); [intros [= <-]; by left|].
  destruct (question_id QUESTIONS (currentStep st)) as [qid|]; [|done].
  destruct (answers st !! qid) as [a|]; [|intros [= <-]; by left].
  destruct (currentStep st <? N_questions - 1).
  - intros [= <-]. right. destruct st; cbn. split; [done|]. split; [done|].
    by eexists _, _.
  - apply handleOptionSelect_shape.
Qed.

Lemma handlePrevStep_shape (st st' : flow) :
  handlePrevStep st = Some st' -> handler_shape st st'.
Proof.
  unfold handlePrevStep. destruct (_ || _); [intros [= <-]; by left|].
  intros [= <-]. right. destruct st; cbn. split; [done|]. split; [done|].
  by eexists _, _.
Qed.

Lemma ready_shape (st st' : flow) :
  result_ready st -> handler_shape st st' -> result_ready st'.
Proof.
  intros Hr [->|(Hv & Hres & ms & cb & Hp & Hc)]; [done|].
  destruct Hr as [Hr|[Hview Hpend]].
  - left. by rewrite Hres.
  - right. split; [by rewrite Hv|]. rewrite Hp. apply Forall_app.
    split; [done|]. by constructor.
Qed.

Lemma ready_settle (o : option flow) (st : flow) :
  result_ready st -> (forall st', o = Some st' -> handler_shape st st') ->
  result_ready (settle o st).
Proof.
  intros Hr Ho. destruct o as [st'|]; [|done].
  apply (ready_shape st); [done|by apply Ho].
Qed.

Lemma ready_resume_save (m : io bool) (st : flow) :
  is_Some (result st) -> result_ready (resume_save m st).
Proof.
  intros H. left. by destruct (resume_save_keeps m st) as (-> & _).
Qed.

Lemma ready_step (e : event) (st : flow) :
  result_ready st -> result_ready (step QUESTIONS configured e st).
Proof.
  intros Hr. destruct e as [v| | |v| | |n|n rp]; cbn [step].
  - apply ready_settle; [done|]. intros st'. apply handleOptionSelect_shape.
  - apply ready_settle; [done|]. intros st'. apply handleNextStep_shape.
  - apply ready_settle; [done|]. intros st'. apply handlePrevStep_shape.
  - destruct (_ && _); [|done]. apply ready_settle; [done|].
    intros st'. apply handleOptionSelect_shape.
  - destruct (_ && _); [|done]. apply ready_settle; [done|].
    intros st'. apply handleNextStep_shape.
  - destruct (_ && _); [|done]. apply ready_settle; [done|].
    intros st'. apply handlePrevStep_shape.
  - destruct (pending st !! n) as [[ms cb|rq k]|] eqn:E; try done.
    destruct cb as [i m reg|m reg| |d]; cbn [fire].
    + (* the confirming timer *)
      destruct Hr as [Hr|[Hview Hpend]].
      * left. destruct (i >=? N_questions - 1); by destruct st.
      * right. pose proof (Forall_delete _ _ n Hpend) as Hdel.
        destruct (i >=? N_questions - 1); destruct st; cbn in *;
          (split; [done|]); apply Forall_app; split; try done;
          by repeat constructor.
    + (* the timer of the full bar: the commit *)
      unfold finishQuiz. apply ready_resume_save.
      by rewrite (proj1 (finishQuiz_begin_fields m reg _)).
    + (* the shatter timer *)
      left. destruct Hr as [Hr|[_ Hpend]]; [by destruct st|].
      pose proof (proj1 (Forall_lookup _ _) Hpend n _ E) as Hc. done.
    + destruct Hr as [Hr|[Hview Hpend]].
      * left. by destruct st.
      * right. pose proof (Forall_delete _ _ n Hpend) as Hdel.
        by destruct st.
  - destruct (pending st !! n) as [[ms cb|rq k]|] eqn:E; try done.
    apply ready_resume_save. destruct Hr as [Hr|[_ Hpend]]; [by destruct st|].
    pose proof (proj1 (Forall_lookup _ _) Hpend n _ E) as Hc. done.
Qed.

(** From a session in which the result view is not up and nothing
    pending leads to it, through any run of handler calls, clicks,
    timers and replies in any order: whenever the result view is
    shown, the session holds a result. *)
Theorem result_view_has_result (evs : list event) (st : flow) :
  before_commit st ->
  view (run QUESTIONS configured evs st) = Result ->
  is_Some (result (run QUESTIONS configured evs st)).
Proof.
  intros Hb.
  assert (H : result_ready (run QUESTIONS configured evs st)).
  { assert (Hr : result_ready st) by (by right). clear Hb.
    revert st Hr. unfold run. induction evs as [|e evs IH]; intros st Hr;
      [done|].
    cbn [foldl]. apply IH. by apply ready_step. }
  intros Hview. destruct H as [H|[H _]]; [done|]. by destruct H.
Qed.

(** *** Back and forth *)

Lemma question_id_exists (i : Z) :
  0 <= i < N_questions -> exists qid, question_id QUESTIONS i = Some qid.
Proof.
  unfold question_id, QUESTIONS_length. intros Hi.
  destruct (Z.ltb_spec i 0); [lia|].
  apply lookup_lt_is_Some. lia.
Qed.

(** On a question that is not the first, with the quiz shown, no guard
    set, no request in flight ([isSending] clear, or the forward arrow
    is disabled), nothing pending and the question before it answered:
    the backward arrow, its timer, the forward arrow and its timer lead
    back to the very same session; no answer, and nothing else, has
    changed. *)
Theorem back_and_forth (st : flow) (q a : Z) :
  ready_at (currentStep st) st -> isSending st = false ->
  0 < currentStep st <= N_questions - 1 ->
  question_id QUESTIONS (currentStep st - 1) = Some q ->
  answers st !! q = Some a ->
  run QUESTIONS configured [ClickPrev; Elapse 0; ClickNext; Elapse 0] st = st.
Proof.
  intros (Hview & _ & Han & Hpu & Hsh & Hpend) Hsend Hi Hq Ha.
  destruct (question_id_exists (currentStep st)) as [qi Hqi]; [lia|].
  destruct st as [v i an pu sh se ans reg res ae rt ls pe ef].
  cbn in Hview, Han, Hpu, Hsh, Hpend, Hsend, Hi, Hq, Ha, Hqi. subst.
  unfold run. cbn [foldl].
  (* the backward arrow *)
  assert (E1 : step QUESTIONS configured ClickPrev
                 (mkFlow Quiz i false false false false ans reg res ae rt ls [] ef)
               = mkFlow Quiz i true false false false ans reg res ae rt ls
                   [Timeout 300 (StepBy (-1))] ef).
  { cbn [step]. unfold rendered, prev_disabled, displayStep, handlePrevStep.
    cbn [view currentStep isAnimating isPulsing isShattering].
    rewrite Z.min_l by lia. rewrite Hqi.
    destruct (Z.eqb_spec i 0); [lia|]. reflexivity. }
  rewrite E1. clear E1.
  (* its timer *)
  assert (E2 : step QUESTIONS configured (Elapse 0)
                 (mkFlow Quiz i true false false false ans reg res ae rt ls
                    [Timeout 300 (StepBy (-1))] ef)
               = mkFlow Quiz (i + -1) false false false false ans reg res ae rt ls
                   [] ef) by reflexivity.
  rewrite E2. clear E2.
  (* the forward arrow *)
  replace (i + -1) with (i - 1) by lia.
  assert (E3 : step QUESTIONS configured ClickNext
                 (mkFlow Quiz (i - 1) false false false false ans reg res ae rt ls [] ef)
               = mkFlow Quiz (i - 1) true false false false ans reg res ae rt ls
                   [Timeout 300 (StepBy 1)] ef).
  { cbn [step]. unfold rendered, next_disabled, currentAnswer, displayStep,
      handleNextStep.
    cbn [view currentStep isAnimating isPulsing isShattering isSending answers].
    rewrite Z.min_l by lia. rewrite Hq. cbn [mbind option_bind]. rewrite Ha.
    destruct (Z.ltb_spec (i - 1) (N_questions - 1)); [|lia]. reflexivity. }
  rewrite E3. clear E3.
  (* its timer *)
  cbn [step pending lookup list_lookup fire]. cbn.
  by replace (i - 1 + 1) with i by lia.
Qed.

(** *** From the first question to the result *)

Lemma answer_mid (st : flow) (v q : Z) :
  ready_at (currentStep st) st ->
  question_id QUESTIONS (currentStep st) = Some q ->
  currentStep st < N_questions - 1 ->
  run QUESTIONS configured [ClickOption v; Elapse 0; Elapse 0] st
  = set_currentStep (currentStep st + 1)
      (set_answers (<[q := v]> (answers st)) st).
Proof.
  intros (Hview & _ & Han & Hpu & Hsh & Hpend) Hq Hi.
  pose proof (question_id_Some QUESTIONS _ _ Hq) as Hrange.
  destruct st as [vw i an pu sh se ans reg res ae rt ls pe ef].
  cbn in Hview, Han, Hpu, Hsh, Hpend, Hq, Hi, Hrange. subst.
  unfold run. cbn [foldl].
  assert (E1 : step QUESTIONS configured (ClickOption v)
                 (mkFlow Quiz i false false false se ans reg res ae rt ls [] ef)
               = mkFlow Quiz i false true false se (<[q := v]> ans) reg res ae rt ls
                   [Timeout 400 (AfterPulse i (<[q := v]> ans) reg)] ef).
  { cbn [step]. unfold rendered, option_disabled, displayStep, handleOptionSelect.
    cbn [view currentStep isAnimating isPulsing isShattering].
    rewrite Z.min_l by lia. rewrite Hq. reflexivity. }
  rewrite E1. clear E1.
  assert (E2 : step QUESTIONS configured (Elapse 0)
                 (mkFlow Quiz i false true false se (<[q := v]> ans) reg res ae rt ls
                    [Timeout 400 (AfterPulse i (<[q := v]> ans) reg)] ef)
               = mkFlow Quiz i true true false se (<[q := v]> ans) reg res ae rt ls
                   [Timeout 300 (StepBy 1)] ef).
  { cbn [step pending lookup list_lookup fire].
    destruct (Z.geb_spec i (N_questions - 1)); [lia|]. reflexivity. }
  rewrite E2. reflexivity.
Qed.

(** The commit, from the full bar on: the timer of the full bar, the
    reply of the store, the shatter timer. *)
Lemma commit_tail (m : gmap Z Z) (reg : RegistrationData) (rp : reply)
    (st : flow) :
  isAnimating st = false -> isPulsing st = false ->
  pending st = [Timeout 600 (AfterFull m reg)] ->
  let st' := run QUESTIONS configured [Elapse 0; Deliver 0 rp; Elapse 0] st in
  view st' = Result /\ currentStep st' = currentStep st /\
  guarded st' = false /\ isShattering st' = false /\ isSending st' = false /\
  pending st' = [] /\ answers st' = answers st /\
  result st' = Some (calculateResults m) /\
  authError st' = (if configured && save_succeeds rp
                   then AuthNone else AuthSaveFailed) /\
  localStorage st' !! STORAGE_KEY_RESULT
  = Some (StoredResult (calculateResults m)).
Proof.
  intros Han Hpu Hpend.
  destruct st as [vw i an pu sh se ans reg0 res ae rt ls pe ef].
  cbn in Han, Hpu, Hpend. subst. unfold run, guarded. cbn [foldl].
  cbn [step pending lookup list_lookup fire].
  unfold finishQuiz, saveResultToSpreadsheet.
  destruct configured; cbn [negb andb].
  - (* a request is sent and awaited *)
    cbn -[insert calculateResults normalizePhoneNumber gmap_lookup].
    destruct rp as [|status body];
      [|destruct (ok status) eqn:Hok; [|destruct (status =? 409) eqn:H409]];
      cbn -[insert calculateResults normalizePhoneNumber gmap_lookup];
      rewrite ?Hok, ?H409;
      cbn -[insert calculateResults normalizePhoneNumber gmap_lookup];
      repeat split; by simplify_map_eq.
  - cbn -[insert calculateResults normalizePhoneNumber gmap_lookup].
    repeat split; by simplify_map_eq.
Qed.

Lemma answer_last (st : flow) (v q : Z) :
  ready_at (currentStep st) st ->
  question_id QUESTIONS (currentStep st) = Some q ->
  currentStep st = N_questions - 1 ->
  let st' := run QUESTIONS configured [ClickOption v; Elapse 0] st in
  isAnimating st' = false /\ isPulsing st' = false /\
  answers st' = <[q := v]> (answers st) /\
  pending st'
  = [Timeout 600 (AfterFull (<[q := v]> (answers st)) (registration st))].
Proof.
  intros (Hview & _ & Han & Hpu & Hsh & Hpend) Hq Hi.
  destruct st as [vw i an pu sh se ans reg res ae rt ls pe ef].
  cbn in Hview, Han, Hpu, Hsh, Hpend, Hq, Hi. subst vw an pu sh pe.
  unfold run. cbn [foldl].
  assert (E1 : step QUESTIONS configured (ClickOption v)
                 (mkFlow Quiz i false false false se ans reg res ae rt ls [] ef)
               = mkFlow Quiz i false true false se (<[q := v]> ans) reg res ae rt ls
                   [Timeout 400 (AfterPulse i (<[q := v]> ans) reg)] ef).
  { cbn [step]. unfold rendered, option_disabled, displayStep, handleOptionSelect.
    cbn [view currentStep isAnimating isPulsing isShattering].
    rewrite Z.min_l by lia. rewrite Hq. reflexivity. }
  rewrite E1. clear E1.
  cbn [step pending lookup list_lookup fire].
  destruct (Z.geb_spec i (N_questions - 1)); [|lia].
  by cbn.
Qed.

Lemma run_app (es1 es2 : list event) (st : flow) :
  run QUESTIONS configured (es1 ++ es2) st
  = run QUESTIONS configured es2 (run QUESTIONS configured es1 st).
Proof. unfold run. apply foldl_app. Qed.

Lemma answer_run (rp : reply) (qs2 : list Z) :
  forall (qs1 vs : list Z) (st : flow),
    QUESTIONS = qs1 ++ qs2 -> qs2 <> [] -> length vs = length qs2 ->
    ready_at (Z.of_nat (length qs1)) st ->
    let st' := run QUESTIONS configured (answer_all vs rp) st in
    view st' = Result /\ guarded st' = false /\ isShattering st' = false /\
    isSending st' = false /\ pending st' = [] /\
    answers st' = fill (answers st) qs2 vs /\
    result st' = Some (calculateResults (fill (answers st) qs2 vs)) /\
    authError st' = (if configured && save_succeeds rp
                     then AuthNone else AuthSaveFailed) /\
    localStorage st' !! STORAGE_KEY_RESULT
    = Some (StoredResult (calculateResults (fill (answers st) qs2 vs))).
Proof.
  induction qs2 as [|q qs2 IH]; intros qs1 vs st HQ Hne Hlen Hready; [done|].
  destruct vs as [|v vs]; [done|]. cbn [length] in Hlen.
  assert (Hi : currentStep st = Z.of_nat (length qs1)) by apply Hready.
  assert (Hq : question_id QUESTIONS (currentStep st) = Some q).
  { unfold question_id. rewrite Hi.
    destruct (Z.ltb_spec (Z.of_nat (length qs1)) 0); [lia|].
    rewrite Nat2Z.id, HQ. by rewrite list_lookup_middle. }
  assert (HN : N_questions = Z.of_nat (length qs1) + 1 + Z.of_nat (length qs2)).
  { unfold QUESTIONS_length. rewrite HQ, length_app. cbn [length]. lia. }
  rewrite <- Hi in Hready.
  destruct qs2 as [|q' qs2].
  - (* the last question *)
    destruct vs; [|done]. clear IH.
    change (answer_all [v] rp)
      with ([ClickOption v; Elapse 0] ++ [Elapse 0; Deliver 0 rp; Elapse 0]).
    rewrite run_app.
    destruct (answer_last st v q Hready Hq) as (Han & Hpu & Hans & Hpend).
    { rewrite HN, Hi. cbn [length]. lia. }
    destruct (commit_tail (<[q := v]> (answers st)) (registration st) rp _
                Han Hpu Hpend)
      as (H1 & _ & H3 & H4 & H5 & H6 & H7 & H8 & H9 & H10).
    unfold fill. cbn [zip zip_with foldl fst snd].
    by rewrite H7, Hans.
  - (* a question before the last *)
    change (answer_all (v :: vs) rp)
      with ([ClickOption v; Elapse 0; Elapse 0] ++ answer_all vs rp).
    rewrite run_app, (answer_mid st v q Hready Hq)
      by (rewrite HN, Hi; cbn [length]; lia).
    destruct (IH (qs1 ++ [q]) vs
                (set_currentStep (currentStep st + 1)
                   (set_answers (<[q := v]> (answers st)) st)))
      as (H1 & H2 & H3 & H4 & H5 & H6 & H7 & H8 & H9).
    + by rewrite <- app_assoc.
    + done.
    + lia.
    + destruct Hready as (Hv & _ & Ha & Hp & Hs & Hpe).
      destruct st. cbn in Hv, Ha, Hp, Hs, Hpe, Hi |- *.
      rewrite Hv, Ha, Hp, Hs, Hpe, Hi, length_app. cbn [length].
      unfold ready_at. cbn. split_and!; try done. lia.
    + by destruct st.
Qed.

(** A respondent who answers every question once, in order, and lets
    each timer run out reaches the result view with every guard down
    and nothing pending; the answers are the given ones, the result is
    computed from exactly them and kept in the local storage, and the
    save error shows exactly when the store did not take the row.
    Source: part_000, handleOptionSelect (382-421), finishQuiz
    (355-380). *)
Theorem answer_all_result (vs : list Z) (rp : reply) (st : flow) :
  QUESTIONS <> [] -> length vs = length QUESTIONS -> ready_at 0 st ->
  let st' := run QUESTIONS configured (answer_all vs rp) st in
  view st' = Result /\ guarded st' = false /\ isShattering st' = false /\
  isSending st' = false /\ pending st' = [] /\
  answers st' = fill (answers st) QUESTIONS vs /\
  result st' = Some (calculateResults (answers st')) /\
  authError st' = (if configured && save_succeeds rp
                   then AuthNone else AuthSaveFailed) /\
  localStorage st' !! STORAGE_KEY_RESULT
  = Some (StoredResult (calculateResults (answers st'))).
Proof.
  intros Hne Hlen Hready.
  destruct (answer_run rp QUESTIONS [] vs st eq_refl Hne Hlen Hready)
    as (H1 & H2 & H3 & H4 & H5 & H6 & H7 & H8 & H9).
  cbn zeta. rewrite H6. by split_and!.
Qed.

End Quiz.

(** A run of direct handler calls, out of order, with magnitudes of the
    scale. *)
Lemma run_on_scale_witness :
  Session.sound [1; 2; 3] (demo_flow 1 false false {[ 1 := 4 ]}) /\
  Session.sound [1; 2; 3]
    (run [1; 2; 3] true
       [OptionSelect 5; PrevStep; Elapse 1; Elapse 0; NextStep;
        ClickOption 2; Elapse 0]
       (demo_flow 1 false false {[ 1 := 4 ]})).
Proof.
  assert (Hs : Session.sound [1; 2; 3] (demo_flow 1 false false {[ 1 := 4 ]})).
  { split; [|split]; [|constructor|exact I].
    intros k v Hk. cbn in Hk.
    destruct (decide (k = 1)) as [->|Hne].
    - rewrite lookup_singleton_eq in Hk. injection Hk as <-.
      split; [|lia]. by left.
    - by rewrite lookup_singleton_ne in Hk. }
  split; [exact Hs|].
  exact (proj1 (run_on_scale [1; 2; 3] true
                  [OptionSelect 5; PrevStep; Elapse 1; Elapse 0; NextStep;
                   ClickOption 2; Elapse 0]
                  (demo_flow 1 false false {[ 1 := 4 ]}) Hs eq_refl)).
Defined.

(** Three questions answered in turn. *)
Lemma result_view_has_result_witness :
  is_Some (result (run [1; 2; 3] true
                     (answer_all [3; 3; 3] (Response 201 (Some [])))
                     (demo_flow 0 false false ∅))).
Proof.
  apply (result_view_has_result [1; 2; 3] true).
  - split; [discriminate|constructor].
  - reflexivity.
Defined.

Lemma back_and_forth_witness :
  run [1; 2; 3] true [ClickPrev; Elapse 0; ClickNext; Elapse 0]
    (demo_flow 1 false false {[1 := 4]})
  = demo_flow 1 false false {[1 := 4]}.
Proof.
  apply (back_and_forth [1; 2; 3] true (demo_flow 1 false false {[1 := 4]}) 1 4).
  - by split_and!.
  - reflexivity.
  - unfold QUESTIONS_length. simpl. lia.
  - reflexivity.
  - reflexivity.
Defined.

Lemma answer_all_result_witness :
  result (run [1; 2; 3] true (answer_all [4; 2; 5] (Response 201 (Some [])))
            (demo_flow 0 false false ∅))
  = Some (calculateResults {[1 := 4; 2 := 2; 3 := 5]}).
Proof.
  destruct (answer_all_result [1; 2; 3] true [4; 2; 5] (Response 201 (Some []))
              (demo_flow 0 false false ∅))
    as (_ & _ & _ & _ & _ & Hans & Hres & _).
  - discriminate.
  - reflexivity.
  - by split_and!.
  - rewrite Hres, Hans. reflexivity.
Defined.

End SessionMore.
